(** * Text-To-Speak: chunking-and-assembly pipeline of [main.py]

    A shallow embedding of the Telegram text-to-speech bot.  The file
    follows the layout of the Python module:

    - [PyStr]: the fragment of Python's [str] that [main.py] uses
      ([len], truthiness, [strip], [split], [re.split] on the sentence
      pattern), over lists of Unicode code points;
    - [Chunker]: [split_text_into_chunks];
    - [Pipeline]: [convert_text_to_speech], [_convert_single_chunk],
      [_safe_edit_message] and [_convert_multiple_chunks] in a state and
      exception monad whose state holds the temporary files, the trace of
      calls made to the collaborators and the outcomes they will have;
    - [Handlers]: [handle_document], with the decoding of the uploaded
      bytes, and [handle_text_message];
    - [Settings]: [set_user_speed] and [toggle_speed].

    The statements about the code come after the five modules: first the
    predicates they are written with, then the facts about strings, the
    chunker, the runs of the pipeline and the handlers. *)

From Stdlib Require Import String Ascii List ZArith NArith Lia Bool.
From Stdlib Require QArith.
Import ListNotations.

(* ================================================================== *)
(** ** Python strings *)
(* ================================================================== *)

Module PyStr.

(** A Python [str] is a sequence of code points; [len] counts them. *)
Definition char := N.
Definition str := list char.

Definition len (s : str) : Z := Z.of_nat (length s).

(** [if s:] on a string. *)
Definition truthy (s : str) : bool :=
  match s with
  | [] => false
  | _ :: _ => true
  end.

(** ASCII literals, for the examples. *)
Fixpoint of_string (s : string) : str :=
  match s with
  | EmptyString => []
  | String a s' => N_of_ascii a :: of_string s'
  end.

Definition space : char := 32%N.
Definition newline : char := 10%N.

(** [str.isspace] on one code point: the characters [str.strip] and
    [str.split] treat as whitespace. *)
Definition isspace (c : char) : bool :=
  ((9 <=? c) && (c <=? 13) || (28 <=? c) && (c <=? 32)
   || (c =? 133) || (c =? 160) || (c =? 5760)
   || (8192 <=? c) && (c <=? 8202)
   || (c =? 8232) || (c =? 8233) || (c =? 8239) || (c =? 8287)
   || (c =? 12288))%N.

Fixpoint lstrip (s : str) : str :=
  match s with
  | [] => []
  | c :: s' => if isspace c then lstrip s' else s
  end.

Definition rstrip (s : str) : str := rev (lstrip (rev s)).

Definition strip (s : str) : str := rstrip (lstrip s).

(** [s.split()]: the maximal runs of non-whitespace characters, in
    order. *)
Fixpoint split (s : str) : list str :=
  match s with
  | [] => []
  | c :: s' =>
      if isspace c then split s'
      else
        match s' with
        | [] => [[c]]
        | c' :: _ =>
            if isspace c' then [c] :: split s'
            else
              match split s' with
              | w :: ws => (c :: w) :: ws
              | [] => [[c]]
              end
        end
  end.

(** The character class of the pattern [r'([.!?।॥\n]+)']. *)
Definition is_sep (c : char) : bool :=
  ((c =? 46) || (c =? 33) || (c =? 63) || (c =? 2404) || (c =? 2405)
   || (c =? 10))%N.

(** [re.split(r'([.!?।॥\n]+)', s)]: the text between the maximal runs
    of separator characters, alternating with those runs (the pattern has
    one capturing group).  The result always has odd length: it starts
    and ends with a piece of text, which may be empty. *)
Fixpoint re_split (s : str) : list str :=
  match s with
  | [] => [[]]
  | c :: s' =>
      match re_split s' with
      | [] => [[c]]
      | piece :: rest =>
          if is_sep c then
            match piece, rest with
            | [], run :: rest' => [] :: (c :: run) :: rest'
            | _, _ => [] :: [c] :: piece :: rest
            end
          else (c :: piece) :: rest
      end
  end.

End PyStr.

(* ================================================================== *)
(** ** The chunker *)
(* ================================================================== *)

Module Chunker.
Import PyStr.
Open Scope Z_scope.

Definition MAX_CHUNK_LENGTH : Z := 180.

(** [if chunk: chunks.append(chunk.strip())] *)
Definition append_stripped (chunks : list str) (chunk : str) : list str :=
  if truthy chunk then chunks ++ [strip chunk] else chunks.

(** One turn of the loop [for word in words], on the pair
    [(chunks, temp_chunk)]. *)
Definition word_step (max_length : Z) (st : list str * str) (word : str)
  : list str * str :=
  let '(chunks, temp_chunk) := st in
  if len temp_chunk + len word + 1 <=? max_length
  then (chunks, temp_chunk ++ (if truthy temp_chunk then [space] else []) ++ word)
  else (append_stripped chunks temp_chunk, word).

(** One turn of the loop over the sentences, on the pair
    [(chunks, current_chunk)]. *)
Definition sentence_step (max_length : Z) (st : list str * str)
    (sentence separator : str) : list str * str :=
  let '(chunks, current_chunk) := st in
  let combined := sentence ++ separator in
  if len current_chunk + len combined <=? max_length
  then (chunks, current_chunk ++ combined)
  else
    let chunks := append_stripped chunks current_chunk in
    if max_length <? len combined
    then fold_left (word_step max_length) (split combined) (chunks, [])
    else (chunks, combined).

(** [for i in range(0, len(sentences), 2)], with
    [separator = sentences[i + 1] if i + 1 < len(sentences) else ""]. *)
Fixpoint sentence_loop (max_length : Z) (sentences : list str)
    (st : list str * str) : list str * str :=
  match sentences with
  | [] => st
  | [sentence] => sentence_step max_length st sentence []
  | sentence :: separator :: rest =>
      sentence_loop max_length rest
        (sentence_step max_length st sentence separator)
  end.

Definition split_text_into_chunks (text : str) (max_length : Z) : list str :=
  if len text <=? max_length then [text]
  else
    let '(chunks, current_chunk) :=
      sentence_loop max_length (re_split text) ([], []) in
    filter truthy (append_stripped chunks current_chunk).

End Chunker.

(* ================================================================== *)
(** ** The conversion pipeline *)
(* ================================================================== *)

Module Pipeline.
Import PyStr Chunker.
Open Scope Z_scope.

Definition MAX_TEXT_LENGTH : Z := 100000.
Definition TELEGRAM_MAX_AUDIO_SIZE_MB : Z := 50.

(** *** What the job talks about *)

(** A temporary file is known by its name. *)
Definition path := nat.

(** The two playback speeds are the floats [1.0] and [2.0]; the code only
    compares a speed with [1.0]. *)
Definition speed := QArith_base.Q.
Definition is_normal (sp : speed) : bool :=
  QArith_base.Qeq_bool sp (QArith_base.Qmake 1 1).

(** An [AudioSegment]: the files it was decoded from, in playing order,
    and the speed-up applied to it. *)
Record audio := { sources : list path; playback : speed }.

Definition audio_add (a b : audio) : audio :=
  {| sources := sources a ++ sources b; playback := playback a |}.

(** The texts the bot shows, one constructor per f-string of [main.py]
    with the values it interpolates.  [AudioTooLarge] carries the measured
    size in bytes ([file_size_mb] is that number divided by [1024 * 1024])
    and the limit in megabytes. *)
Inductive message :=
| TextTooLong (limit length : Z)
| Converting (total : Z)
| Processed (i total : Z)
| Combining
| ApplyingSpeed (sp : speed)
| ToVoiceFormat
| AudioTooLarge (size_bytes limit_mb : Z)
| ProcessingError.

(** The fixed replies of the two message handlers. *)
Inductive reply :=
| OnlyTxtFiles
| CouldNotDownload
| CouldNotRead
| EmptyFile
| ErrorProcessingFile
| NoText
| ErrorConverting.

Inductive suffix := mp3 | ogg.
Inductive level := DEBUG | INFO | WARNING | ERROR.
Inductive action := record_audio | typing.

(** The calls the job makes, in the order it makes them.  A call to a
    collaborator is recorded when it is made, whether it then returns or
    raises. *)
Inductive event :=
| send_message (chat : Z) (m : message)
| edit_message_text (m : message) (chat mid : Z)
| delete_message (chat mid : Z)
| send_chat_action (chat : Z) (a : action)
| reply_to (r : reply)
| get_file
| download_file
| send_voice (chat : Z) (file : path)
| NamedTemporaryFile (file : path) (sfx : suffix)
| gTTS_save (text : str) (file : path)
| from_mp3 (file : path)
| speedup (a : audio) (sp : speed)
| export (a : audio) (file : path)
| getsize (file : path)
| os_remove (file : path)
| logger (l : level).

(** An exception, as the text [str(e)] gives for it. *)
Definition exn := str.

(** The state a job runs in.  [outcomes] says how the coming calls to the
    collaborators end, one entry per call, [Some e] for a call that raises
    [e]; past its end every call returns.  [encoded_bytes] is the size of
    the file the codec writes on [export]. *)
Record state := {
  fs : list path;
  next_mid : Z;
  outcomes : list (option exn);
  encoded_bytes : Z;
  user_speed_settings : list (Z * speed);
  temp_files : list path;
  trace : list event
}.

(** *** State and exception monad *)

Inductive result (A : Type) :=
| Ok (a : A)
| Raise (e : exn).
Arguments Ok {A} a.
Arguments Raise {A} e.

Definition M (A : Type) := state -> result A * state.

Definition ret {A} (a : A) : M A := fun s => (Ok a, s).

Definition bind {A B} (m : M A) (k : A -> M B) : M B :=
  fun s =>
    match m s with
    | (Ok a, s') => k a s'
    | (Raise e, s') => (Raise e, s')
    end.

Definition raise {A} (e : exn) : M A := fun s => (Raise e, s).

(** [try: m  except Exception as e: h e] *)
Definition try_except {A} (m : M A) (h : exn -> M A) : M A :=
  fun s =>
    match m s with
    | (Ok a, s') => (Ok a, s')
    | (Raise e, s') => h e s'
    end.

(** [try: m  finally: fin]; an exception of [fin] replaces the outcome
    of [m]. *)
Definition try_finally {A} (m : M A) (fin : M unit) : M A :=
  fun s =>
    match m s with
    | (r, s') =>
        match fin s' with
        | (Ok _, s'') => (r, s'')
        | (Raise e, s'') => (Raise e, s'')
        end
    end.

Declare Scope monad_scope.
Delimit Scope monad_scope with monad.
Notation "x <- m ;; k" := (bind m (fun x => k))
  (at level 61, m at next level, right associativity) : monad_scope.
Notation "m ;; k" := (bind m (fun _ => k))
  (at level 61, right associativity) : monad_scope.
Open Scope monad_scope.

Definition record (ev : event) (s : state) : state :=
  {| fs := fs s; next_mid := next_mid s; outcomes := outcomes s;
     encoded_bytes := encoded_bytes s;
     user_speed_settings := user_speed_settings s;
     temp_files := temp_files s; trace := trace s ++ [ev] |}.

Definition set_outcomes (o : list (option exn)) (s : state) : state :=
  {| fs := fs s; next_mid := next_mid s; outcomes := o;
     encoded_bytes := encoded_bytes s;
     user_speed_settings := user_speed_settings s;
     temp_files := temp_files s; trace := trace s |}.

Definition set_fs (f : list path) (s : state) : state :=
  {| fs := f; next_mid := next_mid s; outcomes := outcomes s;
     encoded_bytes := encoded_bytes s;
     user_speed_settings := user_speed_settings s;
     temp_files := temp_files s; trace := trace s |}.

Definition set_temp_files (t : list path) (s : state) : state :=
  {| fs := fs s; next_mid := next_mid s; outcomes := outcomes s;
     encoded_bytes := encoded_bytes s;
     user_speed_settings := user_speed_settings s;
     temp_files := t; trace := trace s |}.

Definition set_next_mid (n : Z) (s : state) : state :=
  {| fs := fs s; next_mid := n; outcomes := outcomes s;
     encoded_bytes := encoded_bytes s;
     user_speed_settings := user_speed_settings s;
     temp_files := temp_files s; trace := trace s |}.

(** The next call to a collaborator returns or raises as [outcomes]
    says. *)
Definition outcome : M unit :=
  fun s =>
    match outcomes s with
    | [] => (Ok tt, s)
    | None :: o => (Ok tt, set_outcomes o s)
    | Some e :: o => (Raise e, set_outcomes o s)
    end.

(** A call to a collaborator. *)
Definition call (ev : event) : M unit :=
  (fun s => (Ok tt, record ev s)) ;; outcome.

(** [logger.debug], [.info], [.warning], [.error]; the text of the
    record is left out. *)
Definition log (l : level) : M unit :=
  fun s => (Ok tt, record (logger l) s).

(** *** Collaborators *)

(** [bot.send_message], which returns the message it sent; the job keeps
    its [message_id]. *)
Definition bot_send_message (chat : Z) (m : message) : M Z :=
  call (send_message chat m) ;;
  fun s => (Ok (next_mid s), set_next_mid (next_mid s + 1) s).

(** [tempfile.NamedTemporaryFile(delete=False, suffix=...)] creates a
    file under a name no file has, unless it raises. *)
Definition fresh (files : list path) : path := S (list_max files).

Definition mktemp (sfx : suffix) : M path :=
  outcome ;;
  fun s =>
    let f := fresh (fs s) in
    (Ok f, record (NamedTemporaryFile f sfx) (set_fs (fs s ++ [f]) s)).

(** [with tempfile.NamedTemporaryFile(...) as t:
       name = t.name; temp_files.append(name)] *)
Definition new_temp_file (sfx : suffix) : M path :=
  f <- mktemp sfx ;;
  fun s => (Ok f, set_temp_files (temp_files s ++ [f]) s).

Definition AudioSegment_from_mp3 (f : path) : M audio :=
  call (from_mp3 f) ;;
  ret {| sources := [f]; playback := QArith_base.Qmake 1 1 |}.

Definition audio_speedup (a : audio) (sp : speed) : M audio :=
  call (speedup a sp) ;;
  ret {| sources := sources a;
         playback := QArith_base.Qmult (playback a) sp |}.

Definition os_path_getsize (f : path) : M Z :=
  call (getsize f) ;;
  fun s => (Ok (encoded_bytes s), s).

Definition os_path_exists (f : path) : M bool :=
  fun s => (Ok (existsb (Nat.eqb f) (fs s)), s).

(** [os.remove], a call like the others: it returns or raises as
    [outcomes] says, and the file is gone only when it returns. *)
Definition os_remove_file (f : path) : M unit :=
  call (os_remove f) ;;
  fun s => (Ok tt, set_fs (List.remove Nat.eq_dec f (fs s)) s).

Fixpoint for_each {A} (l : list A) (body : A -> M unit) : M unit :=
  match l with
  | [] => ret tt
  | x :: l' => body x ;; for_each l' body
  end.

(** *** [get_user_speed] *)

Fixpoint dict_get (d : list (Z * speed)) (k : Z) (default : speed) : speed :=
  match d with
  | [] => default
  | (k', v) :: d' => if k' =? k then v else dict_get d' k default
  end.

Definition get_user_speed (user_id : Z) : M speed :=
  fun s =>
    (Ok (dict_get (user_speed_settings s) user_id (QArith_base.Qmake 1 1)), s).

(** [temp_files = []] *)
Definition reset_temp_files : M unit :=
  fun s => (Ok tt, set_temp_files [] s).

(** *** The [finally] block of both conversion functions *)

(** [if os.path.exists(temp_file): os.remove(temp_file); logger.debug(...)] *)
Definition remove_if_exists (temp_file : path) : M unit :=
  e <- os_path_exists temp_file ;;
  if e then os_remove_file temp_file ;; log DEBUG else ret tt.

(** [for temp_file in temp_files: ...] *)
Definition cleanup : M unit :=
  fun s => for_each (temp_files s) remove_if_exists s.

(** *** [_convert_single_chunk] *)

(** The [try] block. *)
Definition single_chunk_try (chat : Z) (text : str) (sp : speed) : M unit :=
  temp_filename <- new_temp_file mp3 ;;
  call (gTTS_save text temp_filename) ;;
  a <- AudioSegment_from_mp3 temp_filename ;;
  a <- (if negb (is_normal sp) then audio_speedup a sp else ret a) ;;
  voice_filename <- new_temp_file ogg ;;
  call (export a voice_filename) ;;
  log INFO ;;
  call (send_voice chat voice_filename) ;;
  log INFO.

Definition _convert_single_chunk (chat : Z) (text title : str) (sp : speed)
  : M unit :=
  call (send_chat_action chat record_audio) ;;
  reset_temp_files ;;
  try_finally (single_chunk_try chat text sp) cleanup.

(** *** [_safe_edit_message] *)

(** [str.lower] on the ASCII letters, the only ones of the text looked
    for. *)
Definition lower (s : str) : str :=
  map (fun c => if ((65 <=? c) && (c <=? 90))%N then (c + 32)%N else c) s.

Fixpoint starts_with (p s : str) : bool :=
  match p, s with
  | [], _ => true
  | _ :: _, [] => false
  | a :: p', b :: s' => (a =? b)%N && starts_with p' s'
  end.

(** [p in s] *)
Fixpoint contains (p s : str) : bool :=
  starts_with p s
  || match s with
     | [] => false
     | _ :: s' => contains p s'
     end.

Definition not_modified : str := of_string "message is not modified".

Definition _safe_edit_message (chat mid : Z) (text : message) : M unit :=
  try_except
    (call (edit_message_text text chat mid))
    (fun e =>
       if negb (contains not_modified (lower e)) then log WARNING
       else ret tt).

(** *** [_convert_multiple_chunks] *)

(** The loop [for i, chunk in enumerate(chunks, 1)]; it returns
    [audio_segments]. *)
Fixpoint chunk_loop (chat mid total : Z) (chunks : list str) (i : Z)
    (audio_segments : list audio) : M (list audio) :=
  match chunks with
  | [] => ret audio_segments
  | chunk :: rest =>
      try_except (call (send_chat_action chat record_audio)) (fun _ => ret tt) ;;
      (if (i mod 5 =? 0) || (i =? total)
       then _safe_edit_message chat mid (Processed i total)
       else ret tt) ;;
      temp_filename <- new_temp_file mp3 ;;
      call (gTTS_save chunk temp_filename) ;;
      audio_segment <- AudioSegment_from_mp3 temp_filename ;;
      log DEBUG ;;
      chunk_loop chat mid total rest (i + 1)
        (audio_segments ++ [audio_segment])
  end.

(** [file_size_mb > TELEGRAM_MAX_AUDIO_SIZE_MB], where [file_size_mb] is
    the size in bytes divided by [1024 * 1024]. *)
Definition too_large (size_bytes : Z) : bool :=
  TELEGRAM_MAX_AUDIO_SIZE_MB * (1024 * 1024) <? size_bytes.

Definition index_error : exn := of_string "list index out of range".

(** The [try] block, with its [except] clause. *)
Definition multiple_chunks_try (chat : Z) (chunks : list str) (sp : speed)
    (progress_msg : Z) : M unit :=
  let total_chunks := Z.of_nat (length chunks) in
  try_except
    (audio_segments <- chunk_loop chat progress_msg total_chunks chunks 1 [] ;;
     _safe_edit_message chat progress_msg Combining ;;
     combined_audio <-
       match audio_segments with
       | [] => raise index_error
       | first :: others => ret (fold_left audio_add others first)
       end ;;
     combined_audio <-
       (if negb (is_normal sp)
        then _safe_edit_message chat progress_msg (ApplyingSpeed sp) ;;
             audio_speedup combined_audio sp
        else ret combined_audio) ;;
     _safe_edit_message chat progress_msg ToVoiceFormat ;;
     final_filename <- new_temp_file ogg ;;
     call (export combined_audio final_filename) ;;
     size_bytes <- os_path_getsize final_filename ;;
     log INFO ;;
     if too_large size_bytes
     then
       _safe_edit_message chat progress_msg
         (AudioTooLarge size_bytes TELEGRAM_MAX_AUDIO_SIZE_MB) ;;
       log WARNING
     else
       try_except (call (delete_message chat progress_msg))
         (fun _ => ret tt) ;;
       call (send_voice chat final_filename) ;;
       log INFO)
    (fun e =>
       log ERROR ;;
       try_except
         (_safe_edit_message chat progress_msg ProcessingError)
         (fun _ => bot_send_message chat ProcessingError ;; ret tt)).

Definition _convert_multiple_chunks (chat : Z) (chunks : list str)
    (title : str) (sp : speed) : M unit :=
  let total_chunks := Z.of_nat (length chunks) in
  log INFO ;;
  progress_msg <- bot_send_message chat (Converting total_chunks) ;;
  reset_temp_files ;;
  try_finally (multiple_chunks_try chat chunks sp progress_msg) cleanup.

(** *** [convert_text_to_speech] *)

Definition convert_text_to_speech (chat : Z) (text title : str)
    (user_id : option Z) (sp : speed) : M unit :=
  if MAX_TEXT_LENGTH <? len text
  then bot_send_message chat (TextTooLong MAX_TEXT_LENGTH (len text)) ;; ret tt
  else
    (* [if user_id: speed = get_user_speed(user_id)], on [None] or an
       integer *)
    sp <- match user_id with
          | Some u => if negb (u =? 0) then get_user_speed u else ret sp
          | None => ret sp
          end ;;
    let chunks := split_text_into_chunks text MAX_CHUNK_LENGTH in
    if (Z.of_nat (length chunks) =? 1)
    then _convert_single_chunk chat text title sp
    else _convert_multiple_chunks chat chunks title sp.

(** A state with no file, no call made yet, and the given outcomes and
    encoded size. *)
Definition initial (o : list (option exn)) (bytes : Z) : state :=
  {| fs := []; next_mid := 1; outcomes := o; encoded_bytes := bytes;
     user_speed_settings := []; temp_files := []; trace := [] |}.

End Pipeline.

(* ================================================================== *)
(** ** The message handlers *)
(* ================================================================== *)

Module Handlers.
Import PyStr Chunker Pipeline.
Open Scope Z_scope.

(** *** [bytes.decode] *)

Definition bytes := list Byte.byte.

Definition continuation (n : N) : bool := ((128 <=? n) && (n <=? 191))%N.

(** [b.decode('utf-8')]; [None] stands for [UnicodeDecodeError].  The
    decoder is the strict one: no overlong form, no surrogate, nothing
    above U+10FFFF. *)
Fixpoint decode_utf8 (b : bytes) : option str :=
  match b with
  | [] => Some []
  | b0 :: r0 =>
      let n0 := Byte.to_N b0 in
      if (n0 <? 128)%N then option_map (cons n0) (decode_utf8 r0)
      else if ((194 <=? n0) && (n0 <=? 223))%N then
        match r0 with
        | b1 :: r1 =>
            let n1 := Byte.to_N b1 in
            if continuation n1
            then option_map (cons ((n0 - 192) * 64 + (n1 - 128))%N)
                   (decode_utf8 r1)
            else None
        | _ => None
        end
      else if ((224 <=? n0) && (n0 <=? 239))%N then
        match r0 with
        | b1 :: b2 :: r2 =>
            let n1 := Byte.to_N b1 in
            let n2 := Byte.to_N b2 in
            if (continuation n1 && continuation n2
                && (negb (n0 =? 224) || (160 <=? n1))
                && (negb (n0 =? 237) || (n1 <=? 159)))%N
            then option_map
                   (cons (((n0 - 224) * 64 + (n1 - 128)) * 64 + (n2 - 128))%N)
                   (decode_utf8 r2)
            else None
        | _ => None
        end
      else if ((240 <=? n0) && (n0 <=? 244))%N then
        match r0 with
        | b1 :: b2 :: b3 :: r3 =>
            let n1 := Byte.to_N b1 in
            let n2 := Byte.to_N b2 in
            let n3 := Byte.to_N b3 in
            if (continuation n1 && continuation n2 && continuation n3
                && (negb (n0 =? 240) || (144 <=? n1))
                && (negb (n0 =? 244) || (n1 <=? 143)))%N
            then option_map
                   (cons ((((n0 - 240) * 64 + (n1 - 128)) * 64
                           + (n2 - 128)) * 64 + (n3 - 128))%N)
                   (decode_utf8 r3)
            else None
        | _ => None
        end
      else None
  end.

(** [b.decode('latin-1')]: each byte is the code point of its value. *)
Definition decode_latin1 (b : bytes) : option str :=
  Some (map Byte.to_N b).

(** The nested [try] of [handle_document]: UTF-8 first, latin-1 when
    that raises; [None] is the branch that replies that the file could
    not be read. *)
Definition decode_document (downloaded_file : bytes) : option str :=
  match decode_utf8 downloaded_file with
  | Some text => Some text
  | None =>
      match decode_latin1 downloaded_file with
      | Some text => Some text
      | None => None
      end
  end.

(** [s.endswith(suffix)] *)
Definition endswith (s sfx : str) : bool := starts_with (rev sfx) (rev s).

(** [not text or text.strip() == ''] *)
Definition blank (text : str) : bool :=
  negb (truthy text) || negb (truthy (strip text)).

Definition attribute_error : exn :=
  of_string "'NoneType' object has no attribute 'endswith'".

(** *** [handle_document]

    [file_name] is the name of the document, if it has one; [file_path]
    and [downloaded_file] are what [bot.get_file] and [bot.download_file]
    return when they return. *)
Definition handle_document (chat user : Z) (file_name : option str)
    (file_path : option str) (downloaded_file : bytes) : M unit :=
  try_except
    (match file_name with
     | None => raise attribute_error
     | Some name =>
         if negb (endswith name (of_string ".txt"))
         then call (reply_to OnlyTxtFiles)
         else
           log INFO ;;
           call (send_chat_action chat typing) ;;
           call get_file ;;
           if negb (match file_path with
                    | Some p => truthy p
                    | None => false
                    end)
           then call (reply_to CouldNotDownload)
           else
             call download_file ;;
             match decode_document downloaded_file with
             | None => call (reply_to CouldNotRead)
             | Some text =>
                 if blank text then call (reply_to EmptyFile)
                 else
                   log INFO ;;
                   convert_text_to_speech chat text
                     (of_string "TTS: " ++ name) (Some user)
                     (QArith_base.Qmake 1 1)
             end
     end)
    (fun e => log ERROR ;; call (reply_to ErrorProcessingFile)).

(** *** [handle_text_message] *)

Definition handle_text_message (chat user : Z) (text : str) : M unit :=
  try_except
    (if blank text then call (reply_to NoText)
     else
       log INFO ;;
       convert_text_to_speech chat text (of_string "Malayalam TTS")
         (Some user) (QArith_base.Qmake 1 1))
    (fun e => log ERROR ;; call (reply_to ErrorConverting)).

End Handlers.

(* ================================================================== *)
(** ** The speed preference of a user *)
(* ================================================================== *)

Module Settings.
Import PyStr Pipeline.
Open Scope Z_scope.

(** [d[k] = v] on the dictionary of the speeds: the entry of [k] is
    replaced, or added when there is none. *)
Fixpoint dict_set (d : list (Z * speed)) (k : Z) (v : speed)
  : list (Z * speed) :=
  match d with
  | [] => [(k, v)]
  | (k', v') :: d' =>
      if k' =? k then (k, v) :: d' else (k', v') :: dict_set d' k v
  end.

Definition set_settings (d : list (Z * speed)) (s : state) : state :=
  {| fs := fs s; next_mid := next_mid s; outcomes := outcomes s;
     encoded_bytes := encoded_bytes s;
     user_speed_settings := d;
     temp_files := temp_files s; trace := trace s |}.

(** [user_speed_settings[user_id] = speed] *)
Definition set_user_speed (user_id : Z) (sp : speed) : M unit :=
  fun s =>
    (Ok tt, set_settings (dict_set (user_speed_settings s) user_id sp) s).

Definition normal_speed : speed := QArith_base.Qmake 1 1.
Definition double_speed : speed := QArith_base.Qmake 2 1.

(** The two texts [toggle_speed] replies with. *)
Inductive speed_reply := SpeedSetTo2x | SpeedSetToNormal.

(** [toggle_speed], from the reading of the current speed to the choice
    of the reply: the value is the text the handler then hands to
    [bot.reply_to].  That call and the [logger.info] after it come last
    and touch neither the settings nor the choice. *)
Definition toggle_speed (user_id : Z) : M speed_reply :=
  current_speed <- get_user_speed user_id ;;
  if is_normal current_speed
  then set_user_speed user_id double_speed ;; ret SpeedSetTo2x
  else set_user_speed user_id normal_speed ;; ret SpeedSetToNormal.

End Settings.

(* ================================================================== *)
(** ** Vocabulary of the statements *)
(* ================================================================== *)

Import PyStr Chunker Pipeline Handlers Settings.
Open Scope Z_scope.

(** A word: what [split] yields, a non-empty run without whitespace. *)
Definition nospace (w : str) : Prop := Forall (fun c => isspace c = false) w.
Definition word (w : str) : Prop := w <> [] /\ nospace w.

(** A string that is empty or begins with whitespace: gluing it after
    another string joins no two words. *)
Definition soft (s : str) : bool :=
  match s with
  | [] => true
  | c :: _ => isspace c
  end.

(** What the specification asks of one chunk, for a limit: it is not
    empty, and it is within the limit unless it is one word that alone
    exceeds it. *)
Definition well_formed_chunk (max_length : Z) (chunk : str) : Prop :=
  chunk <> [] /\
  (len chunk <= max_length \/ (split chunk = [chunk] /\ max_length < len chunk)).

(** What the loops keep true of every string they hold, before the empty
    ones are dropped. *)
Definition fits (max_length : Z) (c : str) : Prop :=
  c = [] \/ len c <= max_length \/ word c.

Definition all_fit (max_length : Z) (st : list str * str) : Prop :=
  Forall (fits max_length) (fst st) /\ fits max_length (snd st).

(** [sep.join(l)] *)
Fixpoint join (sep : str) (l : list str) : str :=
  match l with
  | [] => []
  | x :: l' =>
      match l' with
      | [] => x
      | _ :: _ => x ++ sep ++ join sep l'
      end
  end.

(** Every run of sentence terminators is followed by whitespace, or ends
    the text. *)
Fixpoint terminators_spaced (s : str) : bool :=
  match s with
  | [] => true
  | c1 :: s' =>
      match s' with
      | [] => true
      | c2 :: _ => negb (is_sep c1) || is_sep c2 || isspace c2
      end && terminators_spaced s'
  end.

(** The same, on the list [re.split] returns, read by pairs as the loop
    over the sentences reads it. *)
Fixpoint soft_pairs (pieces : list str) : bool :=
  match pieces with
  | [] => true
  | [sentence] => soft sentence
  | sentence :: separator :: rest =>
      soft (sentence ++ separator) && soft_pairs rest
  end.

(** The words held by the state of the loops. *)
Definition words_of (st : list str * str) : list str :=
  concat (map split (fst st)) ++ split (snd st).

(** The calls recorded between two states of one run. *)
Definition since (s s' : state) : list event :=
  skipn (length (trace s)) (trace s').

(** The temporary files a stretch of the trace creates and removes. *)
Definition created (evs : list event) : list path :=
  flat_map (fun ev => match ev with
                      | NamedTemporaryFile f _ => [f]
                      | _ => []
                      end) evs.

Definition removed (evs : list event) : list path :=
  flat_map (fun ev => match ev with
                      | os_remove f => [f]
                      | _ => []
                      end) evs.

Definition is_edit (ev : event) : bool :=
  match ev with
  | edit_message_text _ _ _ => true
  | _ => false
  end.

Definition is_send_voice (ev : event) : bool :=
  match ev with
  | send_voice _ _ => true
  | _ => false
  end.

Definition is_synthesis (ev : event) : bool :=
  match ev with
  | gTTS_save _ _ => true
  | _ => false
  end.

Definition is_unreadable_reply (ev : event) : bool :=
  match ev with
  | reply_to CouldNotRead => true
  | _ => false
  end.

(** A run only adds to the trace: [extends s s' evs] says that [evs] is
    what it added. *)
Definition extends (s s' : state) (evs : list event) : Prop :=
  trace s' = trace s ++ evs.

Definition edits (evs : list event) : nat := length (filter is_edit evs).

(** Two reports in a row of the same text. *)
Definition report_twice (chat mid : Z) (text : message) : M unit :=
  _safe_edit_message chat mid text ;; _safe_edit_message chat mid text.

(** [keeps R m]: from any state, [m] ends in a state related to it by
    [R], whether it returns or raises. *)
Definition keeps {A} (R : state -> state -> Prop) (m : M A) : Prop :=
  forall s, R s (snd (m s)).

(** The calls that neither create nor remove a file, nor reply for a
    handler: all that the two [try] blocks make. *)
Definition quiet (ev : event) : bool :=
  match ev with
  | NamedTemporaryFile _ _ | os_remove _ | reply_to _ => false
  | _ => true
  end.

(** What a relation needs for the calls to the collaborators to keep
    it. *)
Class Rely (R : state -> state -> Prop) : Prop := {
  rely_refl : forall s, R s s;
  rely_trans : forall a b c, R a b -> R b c -> R a c;
  rely_record : forall ev s, quiet ev = true -> R s (record ev s);
  rely_outcomes : forall o s, R s (set_outcomes o s);
  rely_next_mid : forall n s, R s (set_next_mid n s)
}.

(** The same, with the creation of a temporary file. *)
Class RelyTemp (R : state -> state -> Prop) : Prop := {
  rely_temp_rely :: Rely R;
  rely_new_temp_file : forall sfx, keeps R (new_temp_file sfx)
}.

(** The same, with the two steps around the [try] blocks as well: the
    reset of [temp_files] and the [finally] block. *)
Class RelyJob (R : state -> state -> Prop) : Prop := {
  rely_job_temp :: RelyTemp R;
  rely_reset : keeps R reset_temp_files;
  rely_cleanup : keeps R cleanup
}.

(** Inside a [try] block: nothing is removed, and the files created are
    new, all there, and all listed in [temp_files]. *)
Definition tracks (s s' : state) : Prop :=
  exists evs,
    extends s s' evs /\ removed evs = [] /\
    fs s' = fs s ++ created evs /\
    temp_files s' = temp_files s ++ created evs /\
    NoDup (created evs) /\
    (forall f, In f (created evs) -> ~ In f (fs s)).

(** Outside the [try] blocks: no file is touched. *)
Definition idle (s s' : state) : Prop :=
  exists evs,
    extends s s' evs /\ created evs = [] /\ removed evs = [] /\
    fs s' = fs s.






(** No reply that the file could not be read is made between the two
    states. *)
Definition readable (s s' : state) : Prop :=
  exists evs, extends s s' evs /\ existsb is_unreadable_reply evs = false.

(** What a relation needs for every step that makes no call in [bad] to
    keep it. *)
Class Steps (bad : event -> bool) (R : state -> state -> Prop) : Prop := {
  steps_refl : forall s, R s s;
  steps_trans : forall a b c, R a b -> R b c -> R a c;
  steps_record : forall ev s, bad ev = false -> R s (record ev s);
  steps_outcomes : forall o s, R s (set_outcomes o s);
  steps_next_mid : forall n s, R s (set_next_mid n s);
  steps_fs : forall f s, R s (set_fs f s);
  steps_temp_files : forall t s, R s (set_temp_files t s)
}.

(** No call in [bad] is made between the two states. *)
Definition avoids (bad : event -> bool) (s s' : state) : Prop :=
  exists evs, extends s s' evs /\ existsb bad evs = false.

(** The same for a run that starts with a codec writing [bytes] bytes,
    which no step changes. *)
Definition avoids_at (bad : event -> bool) (bytes : Z) (s s' : state) : Prop :=
  encoded_bytes s = bytes -> encoded_bytes s' = bytes /\ avoids bad s s'.

(** Calls by kind. *)
Definition is_progress_message (ev : event) : bool :=
  match ev with
  | send_message _ _ | edit_message_text _ _ _ | delete_message _ _ => true
  | _ => false
  end.

Definition is_speedup (ev : event) : bool :=
  match ev with
  | speedup _ _ => true
  | _ => false
  end.

Definition is_fetch (ev : event) : bool :=
  match ev with
  | get_file | download_file => true
  | _ => false
  end.

Definition is_temp_file (ev : event) : bool :=
  match ev with
  | NamedTemporaryFile _ _ => true
  | _ => false
  end.

(** The work of a conversion: a file made, a text synthesised, a voice
    sent. *)
Definition is_conversion (ev : event) : bool :=
  is_temp_file ev || is_synthesis ev || is_send_voice ev.

Definition nothing (ev : event) : bool := false.

Definition is_too_long_notice (ev : event) : bool :=
  match ev with
  | send_message _ (TextTooLong _ _) => true
  | _ => false
  end.

(** The characters of a string that are not whitespace, in order. *)
Definition solid (s : str) : str := filter (fun c => negb (isspace c)) s.

(** The characters held by the state of the loops. *)
Definition solid_of (st : list str * str) : str :=
  solid (concat (fst st)) ++ solid (snd st).

(** A chunk as [strip] leaves it. *)
Definition stripped (c : str) : Prop := exists x, c = strip x.

(** What a stretch of the trace synthesised, exported, sent and reported:
    the texts with the files they were saved to, the audio with the file
    it was written to, the files sent as voice, and the pairs [(i, n)] of
    the updates "Processed i/n". *)
Definition synthesized (evs : list event) : list (str * path) :=
  flat_map (fun ev => match ev with
                      | gTTS_save t f => [(t, f)]
                      | _ => []
                      end) evs.

Definition exported (evs : list event) : list (audio * path) :=
  flat_map (fun ev => match ev with
                      | export a f => [(a, f)]
                      | _ => []
                      end) evs.

Definition sent (evs : list event) : list path :=
  flat_map (fun ev => match ev with
                      | send_voice _ f => [f]
                      | _ => []
                      end) evs.

Definition progress (evs : list event) : list (Z * Z) :=
  flat_map (fun ev => match ev with
                      | edit_message_text (Processed i n) _ _ => [(i, n)]
                      | _ => []
                      end) evs.

(** The turns of the loop at which an update is due. *)
Definition due (total i : Z) : bool := (i mod 5 =? 0) || (i =? total).

Definition is_export (ev : event) : bool :=
  match ev with
  | export _ _ => true
  | _ => false
  end.

(** The calls the four lists above are made of. *)
Definition is_job_call (ev : event) : bool :=
  is_synthesis ev || is_export ev || is_send_voice ev || is_edit ev.

(** A run in which no call fails, begun with a codec that writes [bytes]
    bytes: it returns, and [Q] holds of the value and of the calls
    made. *)
Definition calmly {A} (bytes : Z) (m : M A) (Q : A -> list event -> Prop)
  : Prop :=
  forall s,
    outcomes s = [] -> encoded_bytes s = bytes ->
    exists a s' evs,
      m s = (Ok a, s') /\ outcomes s' = [] /\ encoded_bytes s' = bytes
      /\ extends s s' evs /\ Q a evs.

(** The same of a run that may end by an exception of its last step: [Q]
    holds of the calls made. *)
Definition ends (bytes : Z) {A} (m : M A) (Q : list event -> Prop) : Prop :=
  forall s,
    outcomes s = [] -> encoded_bytes s = bytes ->
    exists evs, extends s (snd (m s)) evs /\ Q evs.

(** What a multi-chunk job in which no call fails has done, read off the
    calls [evs] of its [try] block: each chunk synthesised once, in
    order; one export, of the audio decoded from the synthesised files in
    that order; the exported file sent, unless it is above the ceiling;
    an update at each turn where one is due. *)
Definition multiple_chunks_done (bytes : Z) (chunks : list str)
    (evs : list event) : Prop :=
  map fst (synthesized evs) = chunks
  /\ (exists a f,
        exported evs = [(a, f)]
        /\ sources a = map snd (synthesized evs)
        /\ sent evs = if too_large bytes then [] else [f])
  /\ progress evs
     = map (fun i => (i, Z.of_nat (length chunks)))
         (filter (due (Z.of_nat (length chunks)))
            (map Z.of_nat (seq 1 (length chunks)))).

(** What a single-chunk job in which no call fails has done: the whole
    text synthesised once, the audio decoded from that file exported
    once, the exported file sent. *)
Definition single_chunk_done (text : str) (evs : list event) : Prop :=
  exists f1 f2 a,
    synthesized evs = [(text, f1)]
    /\ exported evs = [(a, f2)] /\ sources a = [f1]
    /\ sent evs = [f2].




(* ================================================================== *)
(** ** Facts about Python strings *)
(* ================================================================== *)

(** Pairwise induction, the shape of a loop that reads two items a
    turn. *)
Lemma list_ind2 (A : Type) (P : list A -> Prop) :
  P [] -> (forall x, P [x]) -> (forall x y l, P l -> P (x :: y :: l)) ->
  forall l, P l.
Proof.
  intros H0 H1 H2.
  fix IH 1.
  intros [|x [|y l]]; [exact H0 | apply H1 | apply H2, IH].
Qed.

Lemma len_nil : len [] = 0.
Proof. reflexivity. Qed.

Lemma len_app (a b : str) : len (a ++ b) = len a + len b.
Proof. unfold len. rewrite length_app. lia. Qed.

Lemma len_cons (c : char) (s : str) : len (c :: s) = 1 + len s.
Proof. unfold len. simpl length. lia. Qed.

Lemma len_nonneg (s : str) : 0 <= len s.
Proof. unfold len. lia. Qed.

Lemma truthy_false (s : str) : truthy s = false -> s = [].
Proof. destruct s; [reflexivity | discriminate]. Qed.

Lemma truthy_true (s : str) : truthy s = true -> s <> [].
Proof. destruct s; [discriminate | intros _ H; discriminate H]. Qed.

(** *** [strip] *)

Lemma lstrip_split_off (s : str) :
  exists sp, s = sp ++ lstrip s /\ Forall (fun c => isspace c = true) sp.
Proof.
  induction s as [|c s [sp [E F]]]; simpl.
  - exists []. split; [reflexivity | constructor].
  - destruct (isspace c) eqn:Hc.
    + exists (c :: sp). split.
      * simpl. f_equal. exact E.
      * constructor; assumption.
    + exists []. split; [reflexivity | constructor].
Qed.

Lemma rstrip_split_off (s : str) :
  exists sp, s = rstrip s ++ sp /\ Forall (fun c => isspace c = true) sp.
Proof.
  unfold rstrip.
  destruct (lstrip_split_off (rev s)) as [sp [E F]].
  exists (rev sp). split.
  - rewrite <- rev_app_distr, <- E, rev_involutive. reflexivity.
  - apply Forall_rev. exact F.
Qed.

Lemma lstrip_len (s : str) : len (lstrip s) <= len s.
Proof.
  destruct (lstrip_split_off s) as [sp [E _]].
  rewrite E at 2. rewrite len_app. pose proof (len_nonneg sp). lia.
Qed.

Lemma rstrip_len (s : str) : len (rstrip s) <= len s.
Proof.
  destruct (rstrip_split_off s) as [sp [E _]].
  rewrite E at 2. rewrite len_app. pose proof (len_nonneg sp). lia.
Qed.

Lemma strip_len (s : str) : len (strip s) <= len s.
Proof.
  unfold strip. pose proof (rstrip_len (lstrip s)). pose proof (lstrip_len s).
  lia.
Qed.

Lemma lstrip_nospace (w : str) : nospace w -> lstrip w = w.
Proof.
  intros H. destruct H as [|c w Hc _]; simpl; [reflexivity|].
  rewrite Hc. reflexivity.
Qed.

Lemma strip_nospace (w : str) : nospace w -> strip w = w.
Proof.
  intros H. unfold strip, rstrip.
  rewrite (lstrip_nospace w H).
  rewrite (lstrip_nospace (rev w)).
  - apply rev_involutive.
  - apply Forall_rev. exact H.
Qed.

Lemma strip_nil : strip [] = [].
Proof. reflexivity. Qed.

(** *** [split] *)

Lemma split_cons (c : char) (s : str) :
  split (c :: s) =
  if isspace c then split s
  else if soft s then [c] :: split s
  else match split s with
       | w :: ws => (c :: w) :: ws
       | [] => [[c]]
       end.
Proof. destruct s; reflexivity. Qed.

Lemma split_cons_nospace (c : char) (s : str) :
  isspace c = false -> exists w ws, split (c :: s) = (c :: w) :: ws.
Proof.
  intros Hc. rewrite split_cons, Hc.
  destruct (soft s); [eauto|].
  destruct (split s); eauto.
Qed.

Lemma split_words (s : str) : Forall word (split s).
Proof.
  induction s as [|c s IH]; [constructor|].
  rewrite split_cons. destruct (isspace c) eqn:Hc; [exact IH|].
  assert (Hw : word [c]).
  { split; [discriminate | repeat constructor; exact Hc]. }
  destruct (soft s); [constructor; [exact Hw | exact IH]|].
  destruct (split s) as [|w ws]; [constructor; [exact Hw | constructor]|].
  inversion IH as [|? ? [_ Hn] Hws]; subst.
  constructor; [|exact Hws].
  split; [discriminate | constructor; assumption].
Qed.

Lemma split_whitespace (s : str) :
  Forall (fun c => isspace c = true) s -> split s = [].
Proof.
  induction 1 as [|c s Hc _ IH]; [reflexivity|].
  rewrite split_cons, Hc. exact IH.
Qed.

Lemma split_app_soft (a b : str) :
  soft b = true -> split (a ++ b) = split a ++ split b.
Proof.
  intros Hb. induction a as [|c a IH]; [reflexivity|].
  rewrite <- app_comm_cons, (split_cons c (a ++ b)), (split_cons c a), IH.
  destruct (isspace c); [reflexivity|].
  destruct a as [|c' a'].
  - simpl app. rewrite Hb. reflexivity.
  - rewrite <- app_comm_cons. cbn [soft].
    destruct (isspace c') eqn:Hc'; [reflexivity|].
    destruct (split_cons_nospace c' a' Hc') as [w [ws E]].
    rewrite E. reflexivity.
Qed.

Lemma split_word (w : str) : word w -> split w = [w].
Proof.
  intros [Hne Hn]. induction Hn as [|c w Hc Hn IH]; [congruence|].
  rewrite split_cons, Hc.
  destruct Hn as [|c' w' Hc' Hn']; [reflexivity|].
  cbn [soft]. rewrite Hc', IH by discriminate. reflexivity.
Qed.

Lemma split_lstrip (s : str) : split (lstrip s) = split s.
Proof.
  induction s as [|c s IH]; [reflexivity|].
  cbn [lstrip]. rewrite split_cons.
  destruct (isspace c) eqn:Hc; [exact IH|].
  rewrite split_cons, Hc. reflexivity.
Qed.

Lemma soft_whitespace (s : str) :
  Forall (fun c => isspace c = true) s -> soft s = true.
Proof. destruct 1; [reflexivity | assumption]. Qed.

Lemma split_rstrip (s : str) : split (rstrip s) = split s.
Proof.
  destruct (rstrip_split_off s) as [sp [E F]].
  rewrite E at 2.
  rewrite (split_app_soft _ _ (soft_whitespace _ F)), (split_whitespace _ F).
  symmetry. apply app_nil_r.
Qed.

Lemma split_strip (s : str) : split (strip s) = split s.
Proof. unfold strip. rewrite split_rstrip. apply split_lstrip. Qed.

(* ================================================================== *)
(** ** The chunker: size and shape of the chunks *)
(* ================================================================== *)

Lemma fits_strip (max_length : Z) (c : str) :
  fits max_length c -> fits max_length (strip c).
Proof.
  intros [-> | [H | H]].
  - left. reflexivity.
  - right. left. pose proof (strip_len c). lia.
  - right. right. rewrite strip_nospace; [exact H | apply H].
Qed.

Lemma append_stripped_fits (max_length : Z) (chunks : list str) (c : str) :
  Forall (fits max_length) chunks -> fits max_length c ->
  Forall (fits max_length) (append_stripped chunks c).
Proof.
  intros Hs Hc. unfold append_stripped. destruct (truthy c); [|exact Hs].
  apply Forall_app. split; [exact Hs|].
  constructor; [apply fits_strip, Hc | constructor].
Qed.

Lemma word_step_fits (max_length : Z) (st : list str * str) (w : str) :
  word w -> all_fit max_length st -> all_fit max_length (word_step max_length st w).
Proof.
  destruct st as [chunks temp]. intros Hw [Hs Ht]. unfold word_step.
  destruct (len temp + len w + 1 <=? max_length) eqn:E.
  - apply Z.leb_le in E. split; [exact Hs|]. cbn [snd].
    right. left. rewrite !len_app.
    destruct temp; cbn [truthy]; rewrite ?len_nil; unfold len in *;
      simpl length in *; lia.
  - split; cbn [fst snd].
    + apply append_stripped_fits; assumption.
    + right. right. exact Hw.
Qed.

Lemma word_loop_fits (max_length : Z) (ws : list str) :
  Forall word ws ->
  forall st, all_fit max_length st ->
  all_fit max_length (fold_left (word_step max_length) ws st).
Proof.
  induction 1 as [|w ws Hw _ IH]; intros st Hst; [exact Hst|].
  cbn [fold_left]. apply IH, word_step_fits; assumption.
Qed.

Lemma sentence_step_fits (max_length : Z) (st : list str * str)
    (sentence separator : str) :
  all_fit max_length st ->
  all_fit max_length (sentence_step max_length st sentence separator).
Proof.
  destruct st as [chunks current]. intros [Hs Hc]. unfold sentence_step.
  cbn [fst snd] in *.
  destruct (len current + len (sentence ++ separator) <=? max_length) eqn:E.
  - apply Z.leb_le in E. split; [exact Hs|]. cbn [snd].
    right. left. rewrite len_app. exact E.
  - pose proof (append_stripped_fits max_length chunks current Hs Hc) as Hs'.
    destruct (max_length <? len (sentence ++ separator)) eqn:E'.
    + apply word_loop_fits; [apply split_words|].
      split; [exact Hs' | left; reflexivity].
    + apply Z.ltb_ge in E'. split; [exact Hs'|]. right. left. exact E'.
Qed.

Lemma sentence_loop_fits (max_length : Z) (sentences : list str) :
  forall st, all_fit max_length st ->
  all_fit max_length (sentence_loop max_length sentences st).
Proof.
  induction sentences as [|s|s sep rest IH] using list_ind2; intros st Hst.
  - exact Hst.
  - apply sentence_step_fits, Hst.
  - cbn [sentence_loop]. apply IH, sentence_step_fits, Hst.
Qed.

Lemma fits_well_formed (max_length : Z) (c : str) :
  fits max_length c -> truthy c = true -> well_formed_chunk max_length c.
Proof.
  intros H Ht. split; [apply truthy_true, Ht|].
  destruct H as [-> | [H | H]]; [discriminate | left; exact H |].
  destruct (Z_le_gt_dec (len c) max_length); [left; assumption|].
  right. split; [apply split_word, H | lia].
Qed.

(** Past the shortcut for a short text, every chunk is well formed. *)
Lemma long_text_chunks_well_formed (text : str) (max_length : Z) :
  max_length < len text ->
  Forall (well_formed_chunk max_length) (split_text_into_chunks text max_length).
Proof.
  intros Hlong. unfold split_text_into_chunks.
  apply Z.leb_gt in Hlong. rewrite Hlong.
  pose proof (sentence_loop_fits max_length (re_split text) ([], [])) as H.
  destruct (sentence_loop max_length (re_split text) ([], []))
    as [chunks current].
  destruct H as [Hs Hc]; [split; [constructor | left; reflexivity]|].
  cbn [fst snd] in *.
  pose proof (append_stripped_fits max_length chunks current Hs Hc) as Hall.
  rewrite Forall_forall in Hall.
  apply Forall_forall. intros c Hin. apply filter_In in Hin.
  destruct Hin as [Hin Ht]. apply fits_well_formed; [|exact Ht].
  apply Hall, Hin.
Qed.

(** C1, as stated, fails on the empty text: the shortcut for a text within
    the limit returns it as it is, so the one chunk is empty. *)
Lemma empty_text_gives_empty_chunk :
  ~ Forall (well_formed_chunk MAX_CHUNK_LENGTH)
      (split_text_into_chunks [] MAX_CHUNK_LENGTH).
Proof.
  intros H. inversion H as [|c l [Hne _] _]; subst. apply Hne. reflexivity.
Qed.

(** C1 (amended): for every non-empty text and every positive limit, each
    chunk the chunker returns is non-empty, and is no longer than the limit
    unless it is a single word that alone exceeds the limit. *)
Theorem chunks_nonempty_and_bounded (text : str) (max_length : Z) :
  text <> [] -> 0 < max_length ->
  Forall (well_formed_chunk max_length) (split_text_into_chunks text max_length).
Proof.
  intros Hne Hpos.
  destruct (Z_le_gt_dec (len text) max_length) as [Hshort | Hlong].
  - unfold split_text_into_chunks.
    apply Z.leb_le in Hshort. rewrite Hshort. apply Z.leb_le in Hshort.
    constructor; [|constructor].
    split; [exact Hne | left; exact Hshort].
  - apply long_text_chunks_well_formed. lia.
Qed.

Lemma chunks_nonempty_and_bounded_witness :
  Forall (well_formed_chunk 12)
    (split_text_into_chunks
       (of_string "hello world. this is a test! ok") 12).
Proof.
  apply chunks_nonempty_and_bounded; [discriminate | lia].
Defined.

(** C3, as stated, fails on a text with whitespace at an end: the
    shortcut does not trim. *)
Lemma short_text_is_not_trimmed :
  len (of_string " a") <= MAX_CHUNK_LENGTH /\
  split_text_into_chunks (of_string " a") MAX_CHUNK_LENGTH
  <> [strip (of_string " a")].
Proof. split; [vm_compute; discriminate | vm_compute; discriminate]. Qed.

(** C3 (amended): a text no longer than the limit yields exactly one
    chunk, the text itself, whitespace at its ends included. *)
Theorem short_text_single_chunk (text : str) (max_length : Z) :
  len text <= max_length ->
  split_text_into_chunks text max_length = [text].
Proof.
  intros H. unfold split_text_into_chunks.
  apply Z.leb_le in H. rewrite H. reflexivity.
Qed.

Lemma short_text_single_chunk_witness :
  split_text_into_chunks (of_string " a") 180 = [of_string " a"].
Proof.
  apply short_text_single_chunk. vm_compute. discriminate.
Defined.

(* ================================================================== *)
(** ** The chunker: texts made of separators *)
(* ================================================================== *)

Lemma re_split_nonempty (s : str) : re_split s <> [].
Proof.
  destruct s as [|c s]; cbn [re_split]; [discriminate|].
  destruct (re_split s) as [|piece rest]; [discriminate|].
  destruct (is_sep c); [|discriminate].
  destruct piece; [destruct rest|]; discriminate.
Qed.

Lemma re_split_newlines (s : str) :
  s <> [] -> Forall (fun c => c = newline) s -> re_split s = [[]; s; []].
Proof.
  intros Hne H. induction H as [|c s -> H IH]; [congruence|].
  cbn [re_split]. destruct H as [|c' s' Hc' H'].
  - reflexivity.
  - rewrite IH by discriminate. reflexivity.
Qed.

Lemma newlines_are_whitespace (s : str) :
  Forall (fun c => c = newline) s -> Forall (fun c => isspace c = true) s.
Proof. apply Forall_impl. intros c ->. reflexivity. Qed.

(** C8, as stated, fails on punctuation: a text of separators within the
    limit comes back as the one chunk. *)
Lemma separators_only_text_is_kept :
  Forall (fun c => is_sep c = true) (of_string "...") /\
  split_text_into_chunks (of_string "...") MAX_CHUNK_LENGTH <> [].
Proof.
  split; [repeat constructor | vm_compute; discriminate].
Qed.

(** C8 (amended): a text longer than the limit that consists only of
    paragraph breaks (newline characters) yields no chunk. *)
Theorem newlines_only_text_gives_no_chunk (text : str) (max_length : Z) :
  Forall (fun c => c = newline) text -> max_length < len text ->
  split_text_into_chunks text max_length = [].
Proof.
  intros Hnl Hlong. unfold split_text_into_chunks.
  apply Z.leb_gt in Hlong. rewrite Hlong.
  assert (Hstep : sentence_step max_length ([], []) [] [] = ([], [])).
  { unfold sentence_step. cbn [app len length Z.of_nat Z.add].
    destruct (0 <=? max_length); [reflexivity|].
    cbn [append_stripped truthy].
    destruct (max_length <? 0); reflexivity. }
  destruct text as [|c text'].
  - cbn [re_split sentence_loop]. rewrite Hstep. reflexivity.
  - rewrite (re_split_newlines (c :: text')) by (discriminate || assumption).
    cbn [sentence_loop].
    assert (Hfirst : sentence_step max_length ([], []) [] (c :: text')
                     = ([], [])).
    { unfold sentence_step. cbn [app]. rewrite len_nil, Z.add_0_l, Hlong.
      apply Z.leb_gt, Z.ltb_lt in Hlong. rewrite Hlong.
      rewrite split_whitespace by (apply newlines_are_whitespace, Hnl).
      reflexivity. }
    rewrite Hfirst, Hstep. reflexivity.
Qed.

Lemma newlines_only_text_gives_no_chunk_witness :
  split_text_into_chunks [newline; newline; newline] 2 = [].
Proof.
  apply newlines_only_text_gives_no_chunk.
  - repeat constructor.
  - vm_compute. reflexivity.
Defined.

(* ================================================================== *)
(** ** The chunker: the words of the text *)
(* ================================================================== *)

Lemma soft_app (a b : str) :
  soft a = true -> soft b = true -> soft (a ++ b) = true.
Proof. destruct a; intros Ha Hb; [exact Hb | exact Ha]. Qed.

Lemma soft_pairs_concat (pieces : list str) :
  soft_pairs pieces = true -> soft (concat pieces) = true.
Proof.
  induction pieces as [|s|s sep rest IH] using list_ind2; intros H.
  - reflexivity.
  - cbn [concat]. rewrite app_nil_r. exact H.
  - cbn [soft_pairs] in H. apply andb_prop in H. destruct H as [H1 H2].
    cbn [concat]. rewrite app_assoc. apply soft_app; [exact H1 | apply IH, H2].
Qed.

Lemma concat_re_split (s : str) : concat (re_split s) = s.
Proof.
  induction s as [|c s IH]; [reflexivity|].
  cbn [re_split]. pose proof (re_split_nonempty s) as Hne.
  destruct (re_split s) as [|piece rest]; [congruence|].
  destruct (is_sep c).
  - destruct piece as [|c' p]; [destruct rest as [|run rest']|];
      cbn [concat app] in *; rewrite IH; reflexivity.
  - cbn [concat app] in *. rewrite IH. reflexivity.
Qed.

(** A first piece that is not empty begins the text, with a character
    that is no separator. *)
Lemma re_split_first (s : str) :
  match re_split s with
  | (c :: _) :: _ => exists s', s = c :: s' /\ is_sep c = false
  | _ => True
  end.
Proof.
  destruct s as [|c s]; [exact I|].
  cbn [re_split]. pose proof (re_split_nonempty s) as Hne.
  destruct (re_split s) as [|piece rest]; [congruence|].
  destruct (is_sep c) eqn:Hc.
  - destruct piece; [destruct rest|]; exact I.
  - eauto.
Qed.

Lemma re_split_soft_pairs (s : str) :
  terminators_spaced s = true -> soft_pairs (skipn 2 (re_split s)) = true.
Proof.
  induction s as [|c s IH]; [reflexivity|].
  intros H. cbn [terminators_spaced] in H. apply andb_prop in H.
  destruct H as [Hc Hs]. specialize (IH Hs).
  cbn [re_split]. pose proof (re_split_first s) as Hfirst.
  destruct (re_split s) as [|piece rest]; [reflexivity|].
  destruct (is_sep c) eqn:Hsep.
  - destruct piece as [|c' p].
    + destruct rest as [|run rest']; [reflexivity | exact IH].
    + destruct Hfirst as [s' [-> Hc']].
      cbn [negb orb] in Hc. rewrite Hc' in Hc. cbn [orb] in Hc.
      cbn [skipn]. destruct rest as [|sep rest'].
      * exact Hc.
      * cbn [soft_pairs app soft]. rewrite Hc. exact IH.
  - destruct rest as [|sep rest']; [reflexivity | exact IH].
Qed.

Lemma words_append_stripped (chunks : list str) (c : str) :
  concat (map split (append_stripped chunks c))
  = concat (map split chunks) ++ split c.
Proof.
  unfold append_stripped. destruct c as [|c0 c']; cbn [truthy].
  - symmetry. apply app_nil_r.
  - rewrite map_app, concat_app. cbn [map concat].
    rewrite app_nil_r, split_strip. reflexivity.
Qed.

Lemma split_after_space (s : str) : split (space :: s) = split s.
Proof. rewrite split_cons. reflexivity. Qed.

Lemma word_step_words (max_length : Z) (st : list str * str) (w : str) :
  word w -> words_of (word_step max_length st w) = words_of st ++ [w].
Proof.
  destruct st as [chunks temp]. intros Hw. unfold word_step, words_of.
  destruct (len temp + len w + 1 <=? max_length); cbn [fst snd].
  - rewrite <- app_assoc. f_equal.
    destruct temp as [|c0 temp']; cbn [truthy].
    + cbn [app split]. apply split_word, Hw.
    + rewrite split_app_soft by reflexivity.
      cbn [app]. rewrite split_after_space, (split_word w Hw). reflexivity.
  - rewrite words_append_stripped, (split_word w Hw). reflexivity.
Qed.

Lemma word_loop_words (max_length : Z) (ws : list str) :
  Forall word ws ->
  forall st,
  words_of (fold_left (word_step max_length) ws st) = words_of st ++ ws.
Proof.
  induction 1 as [|w ws Hw _ IH]; intros st.
  - symmetry. apply app_nil_r.
  - cbn [fold_left]. rewrite IH, (word_step_words max_length st w Hw).
    rewrite <- app_assoc. reflexivity.
Qed.

Lemma sentence_step_words (max_length : Z) (st : list str * str)
    (sentence separator : str) :
  snd st = [] \/ soft (sentence ++ separator) = true ->
  words_of (sentence_step max_length st sentence separator)
  = words_of st ++ split (sentence ++ separator).
Proof.
  destruct st as [chunks current]. cbn [snd]. intros H.
  unfold sentence_step.
  destruct (len current + len (sentence ++ separator) <=? max_length).
  - unfold words_of. cbn [fst snd]. rewrite <- app_assoc. f_equal.
    destruct H as [-> | H]; [reflexivity | apply split_app_soft, H].
  - destruct (max_length <? len (sentence ++ separator)).
    + rewrite word_loop_words by apply split_words.
      unfold words_of. cbn [fst snd split].
      rewrite app_nil_r, words_append_stripped. reflexivity.
    + unfold words_of. cbn [fst snd].
      rewrite words_append_stripped. reflexivity.
Qed.

Lemma sentence_loop_words (max_length : Z) (pieces : list str) :
  soft_pairs pieces = true ->
  forall st,
  words_of (sentence_loop max_length pieces st)
  = words_of st ++ split (concat pieces).
Proof.
  induction pieces as [|s|s sep rest IH] using list_ind2; intros H st.
  - symmetry. apply app_nil_r.
  - cbn [sentence_loop concat]. apply sentence_step_words.
    right. rewrite app_nil_r. exact H.
  - cbn [soft_pairs] in H. apply andb_prop in H. destruct H as [H1 H2].
    cbn [sentence_loop concat]. rewrite (IH H2), sentence_step_words by auto.
    rewrite <- app_assoc. f_equal.
    rewrite (app_assoc s sep). symmetry.
    apply split_app_soft, soft_pairs_concat, H2.
Qed.

Lemma split_join (l : list str) :
  split (join [space] l) = concat (map split l).
Proof.
  induction l as [|x l IH]; [reflexivity|].
  cbn [join map concat]. destruct l as [|y l'].
  - cbn [map concat]. symmetry. apply app_nil_r.
  - rewrite split_app_soft by reflexivity. f_equal.
    cbn [app]. rewrite split_after_space. exact IH.
Qed.

Lemma words_filter_truthy (l : list str) :
  concat (map split (filter truthy l)) = concat (map split l).
Proof.
  induction l as [|x l IH]; [reflexivity|].
  cbn [filter]. destruct x as [|c x']; cbn [truthy map concat].
  - exact IH.
  - f_equal. exact IH.
Qed.

(** C2, as stated, fails when a terminator stands inside a word: the
    sentence boundary after it may become a chunk boundary, which cuts
    the word in two. *)
Lemma terminator_inside_word_is_cut :
  split (join [space] (split_text_into_chunks (of_string "aaa.bbb") 3))
  <> split (of_string "aaa.bbb").
Proof. vm_compute. discriminate. Qed.

(** Where a terminator is followed at once by a word, words can also be
    joined: the word-level packing drops the newline that ended the
    sentence, and the next sentence is appended to the last word. *)
Lemma newline_after_word_packing_joins_words :
  split_text_into_chunks
    (of_string "aaaa bbb" ++ [newline] ++ of_string "ccc") 7
  = [of_string "aaaa"; of_string "bbbccc"].
Proof. vm_compute. reflexivity. Qed.

(** C2 (amended): for every limit and every text in which each run of
    sentence terminators is followed by whitespace or ends the text,
    joining the chunks with single spaces gives back the words of the
    text, in order. *)
Theorem chunks_keep_words (text : str) (max_length : Z) :
  terminators_spaced text = true ->
  split (join [space] (split_text_into_chunks text max_length)) = split text.
Proof.
  intros Hsp. rewrite split_join. unfold split_text_into_chunks.
  destruct (len text <=? max_length).
  { cbn [map concat]. apply app_nil_r. }
  pose proof (re_split_soft_pairs text Hsp) as Hsoft.
  pose proof (concat_re_split text) as Hcat.
  assert (Hwords : words_of (sentence_loop max_length (re_split text) ([], []))
                   = split text).
  { destruct (re_split text) as [|s0 [|sep rest]].
    - exact (f_equal split Hcat).
    - cbn [sentence_loop]. rewrite sentence_step_words by (left; reflexivity).
      rewrite <- Hcat. cbn [concat]. rewrite app_nil_r. reflexivity.
    - cbn [sentence_loop skipn] in *.
      rewrite (sentence_loop_words max_length rest Hsoft).
      rewrite sentence_step_words by (left; reflexivity).
      rewrite <- Hcat. cbn [concat words_of fst snd map split app].
      rewrite (app_assoc s0 sep). symmetry.
      apply split_app_soft, soft_pairs_concat, Hsoft. }
  destruct (sentence_loop max_length (re_split text) ([], []))
    as [chunks current].
  rewrite words_filter_truthy, words_append_stripped. exact Hwords.
Qed.

Lemma chunks_keep_words_witness :
  split (join [space]
           (split_text_into_chunks
              (of_string "hello world. this is a test! ok") 12))
  = split (of_string "hello world. this is a test! ok").
Proof.
  apply chunks_keep_words. vm_compute. reflexivity.
Defined.

(* ================================================================== *)
(** ** The pipeline: what a run records *)
(* ================================================================== *)

Lemma since_extends (s s' : state) (evs : list event) :
  extends s s' evs -> since s s' = evs.
Proof.
  unfold extends, since. intros ->.
  rewrite skipn_app, skipn_all, Nat.sub_diag. reflexivity.
Qed.

Lemma created_app (a b : list event) :
  created (a ++ b) = created a ++ created b.
Proof. apply flat_map_app. Qed.

Lemma removed_app (a b : list event) :
  removed (a ++ b) = removed a ++ removed b.
Proof. apply flat_map_app. Qed.

(** *** The refusal of a text above the ceiling *)

(** C7: a text longer than [MAX_TEXT_LENGTH] (100,000 characters) ends
    the job at once.  The one call made is the message that states the
    limit and the length of the text; nothing is synthesised, and no
    temporary file is created. *)
Theorem too_long_text_is_refused (chat : Z) (text title : str)
    (user_id : option Z) (sp : speed) (s : state) :
  MAX_TEXT_LENGTH < len text ->
  since s (snd (convert_text_to_speech chat text title user_id sp s))
  = [send_message chat (TextTooLong 100000 (len text))]
  /\ fs (snd (convert_text_to_speech chat text title user_id sp s)) = fs s.
Proof.
  intros H. unfold convert_text_to_speech.
  apply Z.ltb_lt in H. rewrite H.
  unfold bot_send_message, call, outcome, bind, ret.
  split.
  - apply since_extends. unfold extends.
    destruct (outcomes s) as [|[e|] o] eqn:E; cbn; rewrite E; reflexivity.
  - destruct (outcomes s) as [|[e|] o] eqn:E; cbn; rewrite E; reflexivity.
Qed.

Lemma too_long_text_is_refused_witness :
  since (initial [] 0)
    (snd (convert_text_to_speech 7 (repeat 97%N (N.to_nat 100001)) [] None
            (QArith_base.Qmake 1 1) (initial [] 0)))
  = [send_message 7 (TextTooLong 100000 (len (repeat 97%N (N.to_nat 100001))))]
  /\ fs (snd (convert_text_to_speech 7 (repeat 97%N (N.to_nat 100001)) [] None
                (QArith_base.Qmake 1 1) (initial [] 0))) = fs (initial [] 0).
Proof.
  apply too_long_text_is_refused. vm_compute. reflexivity.
Defined.

(** *** The progress reporter *)

(** C6, as stated, fails: the reporter keeps no record of the text last
    shown, so the second of two equal reports edits the message again. *)
Lemma second_equal_report_edits_again :
  edits (since (initial [] 0)
           (snd (report_twice 7 1 Combining (initial [] 0)))) <> 1%nat.
Proof. vm_compute. discriminate. Qed.

Lemma safe_edit_message_run (chat mid : Z) (text : message) (s : state) :
  fst (_safe_edit_message chat mid text s) = Ok tt /\
  exists evs,
    extends s (snd (_safe_edit_message chat mid text s))
      (edit_message_text text chat mid :: evs)
    /\ edits evs = 0%nat.
Proof.
  unfold _safe_edit_message, try_except, call, outcome, bind, extends.
  destruct (outcomes s) as [|[e|] o] eqn:E; cbn; rewrite E; cbn.
  - split; [reflexivity | exists []; split; reflexivity].
  - destruct (negb (contains _ (lower e))); cbn.
    + split; [reflexivity|]. exists [logger WARNING].
      split; [rewrite <- app_assoc|]; reflexivity.
    + split; [reflexivity | exists []; split; reflexivity].
  - split; [reflexivity | exists []; split; reflexivity].
Qed.

(** C6 (amended): in every state, two reports in a row of the same text
    make two calls of [edit_message_text], one each; neither report
    raises, whatever the messaging backend answers. *)
Theorem equal_reports_edit_twice (chat mid : Z) (text : message) (s : state) :
  edits (since s (snd (report_twice chat mid text s))) = 2%nat
  /\ fst (report_twice chat mid text s) = Ok tt.
Proof.
  unfold report_twice, bind.
  destruct (safe_edit_message_run chat mid text s) as [Hr [evs [Ht He]]].
  destruct (_safe_edit_message chat mid text s) as [r s1].
  cbn [fst snd] in *. subst r.
  destruct (safe_edit_message_run chat mid text s1) as [Hr' [evs' [Ht' He']]].
  destruct (_safe_edit_message chat mid text s1) as [r' s2].
  cbn [fst snd] in *. subst r'. split; [|reflexivity].
  rewrite (since_extends s s2
             ((edit_message_text text chat mid :: evs)
              ++ edit_message_text text chat mid :: evs')).
  - unfold edits in *. rewrite filter_app, length_app. cbn [filter is_edit length].
    rewrite He, He'. reflexivity.
  - unfold extends in *. rewrite Ht', Ht, <- app_assoc. reflexivity.
Qed.

(** *** The size guard *)

(** C4 fails on the single-chunk path, which exports and sends without
    measuring: with a codec that writes 60 MB, above the 50 MB ceiling,
    a text of one chunk is sent all the same, and no size is read. *)
Theorem single_chunk_path_sends_oversized_audio :
  too_large (60 * 1024 * 1024) = true
  /\ since (initial [] (60 * 1024 * 1024))
       (snd (convert_text_to_speech 7 (of_string "hello") [] None
               (QArith_base.Qmake 1 1) (initial [] (60 * 1024 * 1024))))
     = [send_chat_action 7 record_audio;
        NamedTemporaryFile 1%nat mp3;
        gTTS_save (of_string "hello") 1%nat;
        from_mp3 1%nat;
        NamedTemporaryFile 2%nat ogg;
        export {| sources := [1%nat]; playback := QArith_base.Qmake 1 1 |} 2%nat;
        logger INFO;
        send_voice 7 2%nat;
        logger INFO;
        os_remove 1%nat; logger DEBUG;
        os_remove 2%nat; logger DEBUG].
Proof. split; vm_compute; reflexivity. Qed.

(** The multi-chunk path does measure: with the same codec the job ends
    on the message that gives both figures, and nothing is sent. *)
Lemma multiple_chunks_guard :
  existsb is_send_voice
    (since (initial [] (60 * 1024 * 1024))
       (snd (_convert_multiple_chunks 7
               [of_string "one"; of_string "two"; of_string "three"] []
               (QArith_base.Qmake 1 1) (initial [] (60 * 1024 * 1024)))))
  = false
  /\ existsb
       (fun ev =>
          match ev with
          | edit_message_text (AudioTooLarge 62914560 50) _ _ => true
          | _ => false
          end)
       (since (initial [] (60 * 1024 * 1024))
          (snd (_convert_multiple_chunks 7
                  [of_string "one"; of_string "two"; of_string "three"] []
                  (QArith_base.Qmake 1 1) (initial [] (60 * 1024 * 1024)))))
     = true.
Proof. split; vm_compute; reflexivity. Qed.

(** *** The cadence of the progress updates *)

(** C5 fails on the order of the two calls: in the loop the update for
    chunk [i] comes before the synthesis of chunk [i].  In a job of three
    chunks where every call returns, "Processed 3/3" is shown when two
    chunks are done, and the third is synthesised after it. *)
Theorem progress_update_precedes_synthesis :
  exists before between after,
    since (initial [] 0)
      (snd (_convert_multiple_chunks 7
              [of_string "one"; of_string "two"; of_string "three"] []
              (QArith_base.Qmake 1 1) (initial [] 0)))
    = before ++ [edit_message_text (Processed 3 3) 7 1]
      ++ between ++ [gTTS_save (of_string "three") 3%nat] ++ after
    /\ existsb is_synthesis before = true
    /\ length (filter is_synthesis before) = 2%nat
    /\ existsb is_edit before = false.
Proof.
  exists [logger INFO; send_message 7 (Converting 3);
          send_chat_action 7 record_audio; NamedTemporaryFile 1%nat mp3;
          gTTS_save (of_string "one") 1%nat; from_mp3 1%nat; logger DEBUG;
          send_chat_action 7 record_audio; NamedTemporaryFile 2%nat mp3;
          gTTS_save (of_string "two") 2%nat; from_mp3 2%nat; logger DEBUG;
          send_chat_action 7 record_audio].
  exists [NamedTemporaryFile 3%nat mp3].
  eexists. repeat split; vm_compute; reflexivity.
Qed.

(** The indices at which an update is made are those of the claim: in a
    job of twelve chunks, 5, 10 and 12. *)
Lemma twelve_chunks_progress_updates :
  flat_map
    (fun ev =>
       match ev with
       | edit_message_text (Processed i total) _ _ => [(i, total)]
       | _ => []
       end)
    (since (initial [] 0)
       (snd (_convert_multiple_chunks 7 (repeat (of_string "chunk") 12) []
               (QArith_base.Qmake 1 1) (initial [] 0))))
  = [(5, 12); (10, 12); (12, 12)].
Proof. vm_compute. reflexivity. Qed.

(** *** The guard of the handlers *)

(** A blank text never reaches the pipeline: the handler replies that
    there is nothing to convert, and nothing is synthesised. *)
Lemma blank_text_is_turned_away (chat user : Z) (text : str) (s : state) :
  blank text = true ->
  exists evs,
    since s (snd (handle_text_message chat user text s))
    = reply_to NoText :: evs
    /\ existsb is_synthesis evs = false.
Proof.
  intros H. unfold handle_text_message, try_except. rewrite H.
  unfold call, outcome, bind, log.
  destruct (outcomes s) as [|[e|] o] eqn:E; cbn; rewrite E; cbn.
  - exists []. split; [|reflexivity]. apply since_extends. reflexivity.
  - exists [logger ERROR; reply_to ErrorConverting]. split; [|reflexivity].
    apply since_extends. unfold extends.
    destruct o as [|[e'|] o']; cbn; rewrite <- !app_assoc; reflexivity.
  - exists []. split; [|reflexivity]. apply since_extends. reflexivity.
Qed.

(** *** Decoding an uploaded file *)

Lemma decode_document_succeeds (downloaded_file : bytes) :
  decode_document downloaded_file <> None.
Proof.
  unfold decode_document, decode_latin1.
  destruct (decode_utf8 downloaded_file); discriminate.
Qed.

(* ================================================================== *)
(** ** The pipeline: relations every step keeps *)
(* ================================================================== *)

Section Keeps.
Context {R : state -> state -> Prop} {HR : Rely R}.

Lemma keeps_ret {A} (a : A) : keeps R (ret a).
Proof. intros s. apply rely_refl. Qed.

Lemma keeps_raise {A} (e : exn) : keeps R (@raise A e).
Proof. intros s. apply rely_refl. Qed.

Lemma keeps_bind {A B} (m : M A) (k : A -> M B) :
  keeps R m -> (forall a, keeps R (k a)) -> keeps R (bind m k).
Proof.
  intros Hm Hk s. unfold bind. specialize (Hm s).
  destruct (m s) as [[a | e] s1]; cbn [snd] in *; [|exact Hm].
  eapply rely_trans; [exact Hm | apply Hk].
Qed.

Lemma keeps_try_except {A} (m : M A) (h : exn -> M A) :
  keeps R m -> (forall e, keeps R (h e)) -> keeps R (try_except m h).
Proof.
  intros Hm Hh s. unfold try_except. specialize (Hm s).
  destruct (m s) as [[a | e] s1]; cbn [snd] in *; [exact Hm|].
  eapply rely_trans; [exact Hm | apply Hh].
Qed.

Lemma keeps_try_finally {A} (m : M A) (fin : M unit) :
  keeps R m -> keeps R fin -> keeps R (try_finally m fin).
Proof.
  intros Hm Hf s. unfold try_finally. specialize (Hm s).
  destruct (m s) as [r s1]. specialize (Hf s1).
  destruct (fin s1) as [[u | e] s2]; cbn [snd] in *;
    eapply rely_trans; eassumption.
Qed.

Lemma keeps_for_each {A} (l : list A) (body : A -> M unit) :
  (forall x, keeps R (body x)) -> keeps R (for_each l body).
Proof.
  intros Hb. induction l as [|x l IH]; cbn [for_each].
  - apply keeps_ret.
  - apply keeps_bind; [apply Hb | intros _; exact IH].
Qed.

Lemma keeps_outcome : keeps R outcome.
Proof.
  intros s. unfold outcome.
  destruct (outcomes s) as [|[e|] o]; cbn [snd];
    [apply rely_refl | apply rely_outcomes | apply rely_outcomes].
Qed.

Lemma keeps_log (l : level) : keeps R (log l).
Proof. intros s. apply rely_record. reflexivity. Qed.

Lemma keeps_call (ev : event) : quiet ev = true -> keeps R (call ev).
Proof.
  intros Hq. unfold call. apply keeps_bind.
  - intros s. apply rely_record, Hq.
  - intros _. apply keeps_outcome.
Qed.

Lemma keeps_bot_send_message (chat : Z) (m : message) :
  keeps R (bot_send_message chat m).
Proof.
  unfold bot_send_message. apply keeps_bind.
  - apply keeps_call. reflexivity.
  - intros _ s. apply rely_next_mid.
Qed.

Lemma keeps_from_mp3 (f : path) : keeps R (AudioSegment_from_mp3 f).
Proof.
  unfold AudioSegment_from_mp3. apply keeps_bind.
  - apply keeps_call. reflexivity.
  - intros _. apply keeps_ret.
Qed.

Lemma keeps_speedup (a : audio) (sp : speed) : keeps R (audio_speedup a sp).
Proof.
  unfold audio_speedup. apply keeps_bind.
  - apply keeps_call. reflexivity.
  - intros _. apply keeps_ret.
Qed.

Lemma keeps_getsize (f : path) : keeps R (os_path_getsize f).
Proof.
  unfold os_path_getsize. apply keeps_bind.
  - apply keeps_call. reflexivity.
  - intros _ s. apply rely_refl.
Qed.

Lemma keeps_get_user_speed (user_id : Z) : keeps R (get_user_speed user_id).
Proof. intros s. apply rely_refl. Qed.

Lemma keeps_safe_edit_message (chat mid : Z) (text : message) :
  keeps R (_safe_edit_message chat mid text).
Proof.
  unfold _safe_edit_message. apply keeps_try_except.
  - apply keeps_call. reflexivity.
  - intros e. destruct (negb _); [apply keeps_log | apply keeps_ret].
Qed.

End Keeps.

(** One step of a proof that a piece of the pipeline keeps a relation. *)
Ltac keeps_step :=
  first
    [ apply keeps_ret
    | apply keeps_raise
    | apply keeps_log
    | apply keeps_safe_edit_message
    | apply keeps_bot_send_message
    | apply keeps_from_mp3
    | apply keeps_speedup
    | apply keeps_getsize
    | apply keeps_get_user_speed
    | apply rely_new_temp_file
    | apply keeps_call; reflexivity
    | apply keeps_bind; [|intros ?]
    | apply keeps_try_except; [|intros ?]
    | match goal with
      | |- keeps _ (if ?b then _ else _) => destruct b
      | |- keeps _ (match ?x with _ => _ end) => destruct x
      end ].

Section KeepsBlocks.
Context {R : state -> state -> Prop} {HR : RelyTemp R}.

Lemma keeps_chunk_loop (chat mid total : Z) (chunks : list str) :
  forall i segs, keeps R (chunk_loop chat mid total chunks i segs).
Proof.
  induction chunks as [|chunk rest IH]; intros i segs; cbn [chunk_loop].
  - apply keeps_ret.
  - repeat keeps_step. apply IH.
Qed.

Lemma keeps_single_chunk_try (chat : Z) (text : str) (sp : speed) :
  keeps R (single_chunk_try chat text sp).
Proof. unfold single_chunk_try. repeat keeps_step. Qed.

Lemma keeps_multiple_chunks_try (chat : Z) (chunks : list str) (sp : speed)
    (progress_msg : Z) :
  keeps R (multiple_chunks_try chat chunks sp progress_msg).
Proof.
  unfold multiple_chunks_try.
  apply keeps_try_except; [|intros e; repeat keeps_step].
  apply keeps_bind; [apply keeps_chunk_loop | intros segs].
  repeat keeps_step.
Qed.

End KeepsBlocks.

(* ================================================================== *)
(** ** The pipeline: temporary files *)
(* ================================================================== *)

Lemma quiet_created (ev : event) : quiet ev = true -> created [ev] = [].
Proof. destruct ev; (discriminate || reflexivity). Qed.

Lemma quiet_removed (ev : event) : quiet ev = true -> removed [ev] = [].
Proof. destruct ev; (discriminate || reflexivity). Qed.

Lemma extends_refl (s : state) : extends s s [].
Proof. unfold extends. symmetry. apply app_nil_r. Qed.

Lemma extends_same (s s' : state) : trace s' = trace s -> extends s s' [].
Proof. unfold extends. intros ->. symmetry. apply app_nil_r. Qed.

Lemma extends_trans (a b c : state) (evs1 evs2 : list event) :
  extends a b evs1 -> extends b c evs2 -> extends a c (evs1 ++ evs2).
Proof. unfold extends. intros H1 H2. rewrite H2, H1, app_assoc. reflexivity. Qed.

Lemma fresh_not_in (files : list path) : ~ In (fresh files) files.
Proof.
  unfold fresh. intros H.
  assert (Hle : Forall (fun k => (k <= list_max files)%nat) files).
  { apply list_max_le. apply Nat.le_refl. }
  rewrite Forall_forall in Hle. specialize (Hle _ H). lia.
Qed.

#[local] Instance tracks_rely : Rely tracks.
Proof.
  split.
  - intros s. exists []. cbn. rewrite !app_nil_r.
    repeat split; [apply extends_refl | constructor | intros f []].
  - intros a b c (e1 & X1 & Rm1 & F1 & T1 & N1 & D1)
                 (e2 & X2 & Rm2 & F2 & T2 & N2 & D2).
    exists (e1 ++ e2). rewrite created_app, removed_app, Rm1, Rm2.
    repeat split.
    + eapply extends_trans; eassumption.
    + rewrite F2, F1, app_assoc. reflexivity.
    + rewrite T2, T1, app_assoc. reflexivity.
    + apply NoDup_app; [exact N1 | exact N2 |].
      intros f H1 H2. apply (D2 f H2). rewrite F1. apply in_or_app. right.
      exact H1.
    + intros f Hin. apply in_app_or in Hin. destruct Hin as [Hin | Hin].
      * apply D1, Hin.
      * intros Hf. apply (D2 f Hin). rewrite F1. apply in_or_app. left.
        exact Hf.
  - intros ev s Hq. exists [ev].
    rewrite (quiet_created ev Hq), (quiet_removed ev Hq). cbn.
    rewrite !app_nil_r. repeat split; [constructor | intros f []].
  - intros o s. exists []. unfold extends. cbn. rewrite !app_nil_r.
    repeat split; [constructor | intros f []].
  - intros n s. exists []. unfold extends. cbn. rewrite !app_nil_r.
    repeat split; [constructor | intros f []].
Qed.

#[local] Instance tracks_rely_temp : RelyTemp tracks.
Proof.
  split; [exact tracks_rely|].
  intros sfx s. unfold new_temp_file, mktemp, outcome, bind.
  destruct (outcomes s) as [|[e|] o] eqn:E; cbn [snd].
  - exists [NamedTemporaryFile (fresh (fs s)) sfx]. cbn.
    repeat split.
    + repeat constructor. intros [].
    + intros f [<- | []]. apply fresh_not_in.
  - apply rely_outcomes.
  - exists [NamedTemporaryFile (fresh (fs s)) sfx]. cbn.
    repeat split.
    + repeat constructor. intros [].
    + intros f [<- | []]. apply fresh_not_in.
Qed.

#[local] Instance idle_rely : Rely idle.
Proof.
  split.
  - intros s. exists []. repeat split. apply extends_same; reflexivity.
  - intros a b c (e1 & X1 & C1 & Rm1 & F1) (e2 & X2 & C2 & Rm2 & F2).
    exists (e1 ++ e2). rewrite created_app, removed_app, C1, C2, Rm1, Rm2.
    repeat split; [eapply extends_trans; eassumption | congruence].
  - intros ev s Hq. exists [ev].
    rewrite (quiet_created ev Hq), (quiet_removed ev Hq). repeat split.
  - intros o s. exists []. repeat split. apply extends_same; reflexivity.
  - intros n s. exists []. repeat split. apply extends_same; reflexivity.
Qed.

Lemma keeps_idle_reset : keeps idle reset_temp_files.
Proof. intros s. exists []. repeat split. apply extends_same; reflexivity. Qed.













(** The statement is about real files: a single-chunk job that runs to
    its end creates two, and removes the two. *)
Lemma single_chunk_job_files :
  created (since (initial [] 0)
             (snd (_convert_single_chunk 7 (of_string "hello") []
                     (QArith_base.Qmake 1 1) (initial [] 0))))
  = [1%nat; 2%nat]
  /\ removed (since (initial [] 0)
                (snd (_convert_single_chunk 7 (of_string "hello") []
                        (QArith_base.Qmake 1 1) (initial [] 0))))
     = [1%nat; 2%nat].
Proof. split; vm_compute; reflexivity. Qed.

(** So does a job of three chunks whose third synthesis fails. *)
Lemma failed_synthesis_job_files :
  created (since (initial (repeat None 12 ++ [Some []]) 0)
             (snd (_convert_multiple_chunks 7
                     [of_string "one"; of_string "two"; of_string "three"]
                     [] (QArith_base.Qmake 1 1)
                     (initial (repeat None 12 ++ [Some []]) 0))))
  = [1%nat; 2%nat; 3%nat]
  /\ removed (since (initial (repeat None 12 ++ [Some []]) 0)
                (snd (_convert_multiple_chunks 7
                        [of_string "one"; of_string "two"; of_string "three"]
                        [] (QArith_base.Qmake 1 1)
                        (initial (repeat None 12 ++ [Some []]) 0))))
     = [1%nat; 2%nat; 3%nat]
  /\ existsb is_send_voice
       (since (initial (repeat None 12 ++ [Some []]) 0)
          (snd (_convert_multiple_chunks 7
                  [of_string "one"; of_string "two"; of_string "three"]
                  [] (QArith_base.Qmake 1 1)
                  (initial (repeat None 12 ++ [Some []]) 0))))
     = false.
Proof. repeat split; vm_compute; reflexivity. Qed.



(* ================================================================== *)
(** ** The handlers: the reply for an unreadable file *)
(* ================================================================== *)

Section KeepsJob.
Context {R : state -> state -> Prop} {HR : RelyJob R}.

Lemma keeps_convert_single_chunk (chat : Z) (text title : str) (sp : speed) :
  keeps R (_convert_single_chunk chat text title sp).
Proof.
  unfold _convert_single_chunk.
  apply keeps_bind; [repeat keeps_step | intros _].
  apply keeps_bind; [apply rely_reset | intros _].
  apply keeps_try_finally; [apply keeps_single_chunk_try | apply rely_cleanup].
Qed.

Lemma keeps_convert_multiple_chunks (chat : Z) (chunks : list str)
    (title : str) (sp : speed) :
  keeps R (_convert_multiple_chunks chat chunks title sp).
Proof.
  unfold _convert_multiple_chunks.
  apply keeps_bind; [repeat keeps_step | intros _].
  apply keeps_bind; [repeat keeps_step | intros progress_msg].
  apply keeps_bind; [apply rely_reset | intros _].
  apply keeps_try_finally;
    [apply keeps_multiple_chunks_try | apply rely_cleanup].
Qed.

Lemma keeps_convert_text_to_speech (chat : Z) (text title : str)
    (user_id : option Z) (sp : speed) :
  keeps R (convert_text_to_speech chat text title user_id sp).
Proof.
  unfold convert_text_to_speech.
  destruct (MAX_TEXT_LENGTH <? len text); [repeat keeps_step|].
  apply keeps_bind.
  - destruct user_id as [u|]; [destruct (negb (u =? 0))|]; repeat keeps_step.
  - intros sp'. destruct (_ =? 1).
    + apply keeps_convert_single_chunk.
    + apply keeps_convert_multiple_chunks.
Qed.

End KeepsJob.

Lemma readable_same (s s' : state) : trace s' = trace s -> readable s s'.
Proof. intros H. exists []. split; [apply extends_same, H | reflexivity]. Qed.

Lemma readable_record (ev : event) (s : state) :
  is_unreadable_reply ev = false -> readable s (record ev s).
Proof.
  intros H. exists [ev]. split; [reflexivity|]. cbn. rewrite H. reflexivity.
Qed.

#[local] Instance readable_rely : Rely readable.
Proof.
  split.
  - intros s. apply readable_same. reflexivity.
  - intros a b c (e1 & X1 & H1) (e2 & X2 & H2). exists (e1 ++ e2).
    split; [eapply extends_trans; eassumption|].
    rewrite existsb_app, H1, H2. reflexivity.
  - intros ev s Hq. apply readable_record. destruct ev; (discriminate || reflexivity).
  - intros o s. apply readable_same. reflexivity.
  - intros n s. apply readable_same. reflexivity.
Qed.

#[local] Instance readable_rely_temp : RelyTemp readable.
Proof.
  split; [exact readable_rely|].
  intros sfx s. unfold new_temp_file, mktemp, outcome, bind.
  destruct (outcomes s) as [|[e|] o]; cbn [snd].
  - exists [NamedTemporaryFile (fresh (fs s)) sfx]. split; reflexivity.
  - apply readable_same. reflexivity.
  - exists [NamedTemporaryFile (fresh (fs s)) sfx]. split; reflexivity.
Qed.

#[local] Instance readable_rely_job : RelyJob readable.
Proof.
  split; [exact readable_rely_temp | |].
  - intros s. apply readable_same. reflexivity.
  - intros s0. unfold cleanup.
    apply (keeps_for_each (temp_files s0) remove_if_exists).
    intros f s.
    unfold remove_if_exists, os_path_exists, os_remove_file, call, outcome,
      log, bind.
    destruct (existsb (Nat.eqb f) (fs s)); cbn [snd outcomes record].
    + destruct (outcomes s) as [|[e|] o]; cbn [snd].
      * exists [os_remove f; logger DEBUG]. split; [|reflexivity].
        unfold extends. cbn. rewrite <- app_assoc. reflexivity.
      * exists [os_remove f]. split; reflexivity.
      * exists [os_remove f; logger DEBUG]. split; [|reflexivity].
        unfold extends. cbn. rewrite <- app_assoc. reflexivity.
    + apply readable_same. reflexivity.
Qed.

Lemma keeps_readable_reply (r : reply) :
  r <> CouldNotRead -> keeps readable (call (reply_to r)).
Proof.
  intros Hr. unfold call. apply keeps_bind; [|intros _; apply keeps_outcome].
  intros s. apply readable_record. destruct r; (congruence || reflexivity).
Qed.

Lemma keeps_readable_handle_document (chat user : Z) (file_name : option str)
    (file_path : option str) (downloaded_file : bytes) :
  keeps readable (handle_document chat user file_name file_path downloaded_file).
Proof.
  unfold handle_document. apply keeps_try_except.
  - destruct file_name as [name|]; [|apply keeps_raise].
    destruct (negb (endswith name _)).
    { apply keeps_readable_reply. discriminate. }
    do 3 (apply keeps_bind; [repeat keeps_step | intros _]).
    destruct (negb _).
    { apply keeps_readable_reply. discriminate. }
    apply keeps_bind; [repeat keeps_step | intros _].
    pose proof (decode_document_succeeds downloaded_file) as Hdec.
    destruct (decode_document downloaded_file) as [text|]; [|congruence].
    destruct (blank text).
    { apply keeps_readable_reply. discriminate. }
    apply keeps_bind; [repeat keeps_step | intros _].
    apply keeps_convert_text_to_speech.
  - intros e. apply keeps_bind; [apply keeps_log | intros _].
    apply keeps_readable_reply. discriminate.
Qed.

(** C10: the two-stage decoding of an uploaded file always yields a text,
    because latin-1 decodes every sequence of bytes; and whatever the
    file and the collaborators do, [handle_document] never replies that
    the file could not be read. *)
Theorem uploaded_file_is_always_decoded (chat user : Z)
    (file_name file_path : option str) (downloaded_file : bytes) (s : state) :
  (exists text, decode_document downloaded_file = Some text)
  /\ existsb is_unreadable_reply
       (since s (snd (handle_document chat user file_name file_path
                        downloaded_file s))) = false.
Proof.
  split.
  - pose proof (decode_document_succeeds downloaded_file) as H.
    destruct (decode_document downloaded_file) as [text|]; [eauto | congruence].
  - destruct (keeps_readable_handle_document chat user file_name file_path
                downloaded_file s) as (evs & X & H).
    rewrite (since_extends _ _ _ X). exact H.
Qed.

(* ================================================================== *)
(** ** The speed preference: reading, setting, toggling *)
(* ================================================================== *)

Lemma dict_get_set_same (d : list (Z * speed)) (k : Z) (v default : speed) :
  dict_get (dict_set d k v) k default = v.
Proof.
  induction d as [|[k' v'] d IH]; cbn [dict_set dict_get].
  - rewrite Z.eqb_refl. reflexivity.
  - destruct (k' =? k) eqn:E; cbn [dict_get].
    + rewrite Z.eqb_refl. reflexivity.
    + rewrite E. exact IH.
Qed.

Lemma dict_get_set_other (d : list (Z * speed)) (k k' : Z) (v default : speed) :
  k' <> k ->
  dict_get (dict_set d k v) k' default = dict_get d k' default.
Proof.
  intros Hne. induction d as [|[k0 v0] d IH]; cbn [dict_set dict_get].
  - destruct (k =? k') eqn:E; [apply Z.eqb_eq in E; congruence | reflexivity].
  - destruct (k0 =? k) eqn:E; cbn [dict_get].
    + apply Z.eqb_eq in E. subst k0.
      destruct (k =? k') eqn:E'; [apply Z.eqb_eq in E'; congruence | reflexivity].
    + destruct (k0 =? k'); [reflexivity | exact IH].
Qed.

(** The speed read for a user right after it was set is the speed set,
    whatever the settings held before. *)
Theorem speed_set_is_speed_read (user_id : Z) (sp : speed) (s : state) :
  fst (get_user_speed user_id (snd (set_user_speed user_id sp s))) = Ok sp.
Proof.
  unfold get_user_speed, set_user_speed. cbn [fst snd user_speed_settings set_settings].
  f_equal. apply dict_get_set_same.
Qed.

(** Setting the speed of one user changes the speed read for no other
    user. *)
Theorem speed_set_leaves_other_users (user_id other : Z) (sp : speed)
    (s : state) :
  other <> user_id ->
  fst (get_user_speed other (snd (set_user_speed user_id sp s)))
  = fst (get_user_speed other s).
Proof.
  intros H. unfold get_user_speed, set_user_speed.
  cbn [fst snd user_speed_settings set_settings].
  f_equal. apply dict_get_set_other, H.
Qed.

Lemma speed_set_leaves_other_users_witness :
  fst (get_user_speed 8
         (snd (set_user_speed 7 double_speed (initial [] 0))))
  = fst (get_user_speed 8 (initial [] 0)).
Proof. apply speed_set_leaves_other_users. discriminate. Defined.

Lemma toggle_speed_run (user_id : Z) (s : state) :
  toggle_speed user_id s
  = if is_normal (dict_get (user_speed_settings s) user_id normal_speed)
    then (Ok SpeedSetTo2x,
          set_settings (dict_set (user_speed_settings s) user_id double_speed) s)
    else (Ok SpeedSetToNormal,
          set_settings (dict_set (user_speed_settings s) user_id normal_speed) s).
Proof.
  unfold toggle_speed, bind, get_user_speed, set_user_speed, ret.
  change (QArith_base.Qmake 1 1) with normal_speed.
  destruct (is_normal _); reflexivity.
Qed.

(** One toggle: a user at normal speed, or never seen, is set to 2x and
    told so; a user at any other speed is set back to normal and told
    so. *)
Theorem toggle_speed_flips (user_id : Z) (s : state) :
  (is_normal (dict_get (user_speed_settings s) user_id normal_speed) = true
   /\ toggle_speed user_id s
      = (Ok SpeedSetTo2x,
         set_settings
           (dict_set (user_speed_settings s) user_id double_speed) s)
   /\ fst (get_user_speed user_id (snd (toggle_speed user_id s)))
      = Ok double_speed)
  \/ (is_normal (dict_get (user_speed_settings s) user_id normal_speed) = false
      /\ toggle_speed user_id s
         = (Ok SpeedSetToNormal,
            set_settings
              (dict_set (user_speed_settings s) user_id normal_speed) s)
      /\ fst (get_user_speed user_id (snd (toggle_speed user_id s)))
         = Ok normal_speed).
Proof.
  rewrite toggle_speed_run.
  destruct (is_normal _); [left | right];
    (split; [reflexivity | split; [reflexivity|]]);
    unfold get_user_speed; cbn [fst snd user_speed_settings set_settings];
    f_equal; apply dict_get_set_same.
Qed.

(** Two toggles in a row bring a user back to normal speed when that is
    where the user was: the first sets 2x, the second sets normal
    again. *)
Theorem toggle_speed_twice_from_normal (user_id : Z) (s : state) :
  is_normal (dict_get (user_speed_settings s) user_id normal_speed) = true ->
  fst (toggle_speed user_id s) = Ok SpeedSetTo2x
  /\ fst (toggle_speed user_id (snd (toggle_speed user_id s)))
     = Ok SpeedSetToNormal
  /\ fst (get_user_speed user_id
            (snd (toggle_speed user_id (snd (toggle_speed user_id s)))))
     = Ok normal_speed.
Proof.
  intros H. rewrite (toggle_speed_run user_id s), H. cbn [fst snd].
  rewrite toggle_speed_run. cbn [user_speed_settings set_settings].
  rewrite (dict_get_set_same (user_speed_settings s) user_id double_speed
             normal_speed).
  cbn [fst snd].
  split; [reflexivity | split; [reflexivity|]].
  unfold get_user_speed. cbn [fst snd user_speed_settings set_settings].
  f_equal. apply dict_get_set_same.
Qed.

Lemma toggle_speed_twice_from_normal_witness :
  fst (toggle_speed 7 (initial [] 0)) = Ok SpeedSetTo2x
  /\ fst (toggle_speed 7 (snd (toggle_speed 7 (initial [] 0))))
     = Ok SpeedSetToNormal
  /\ fst (get_user_speed 7
            (snd (toggle_speed 7 (snd (toggle_speed 7 (initial [] 0))))))
     = Ok normal_speed.
Proof. apply toggle_speed_twice_from_normal. reflexivity. Defined.

(** A job started for a user runs at the speed stored for that user, not
    at the speed passed to it: with a user identifier that is not zero,
    two calls that differ only in the speed argument do the same. *)
Theorem stored_speed_overrides_argument (chat : Z) (text title : str)
    (user_id : Z) (sp sp' : speed) (s : state) :
  user_id <> 0 ->
  convert_text_to_speech chat text title (Some user_id) sp s
  = convert_text_to_speech chat text title (Some user_id) sp' s.
Proof.
  intros H. unfold convert_text_to_speech.
  apply Z.eqb_neq in H. rewrite H. reflexivity.
Qed.

Lemma stored_speed_overrides_argument_witness :
  convert_text_to_speech 7 (of_string "hello") [] (Some 8) normal_speed
    (initial [] 0)
  = convert_text_to_speech 7 (of_string "hello") [] (Some 8) double_speed
      (initial [] 0).
Proof. apply stored_speed_overrides_argument. discriminate. Defined.

(* ================================================================== *)
(** ** The pipeline: calls a run never makes *)
(* ================================================================== *)

Section StepsFacts.
Context {bad : event -> bool} {R : state -> state -> Prop} {HS : Steps bad R}.

Lemma step_ret {A} (a : A) : keeps R (ret a).
Proof. intros s. apply steps_refl. Qed.

Lemma step_raise {A} (e : exn) : keeps R (@raise A e).
Proof. intros s. apply steps_refl. Qed.

Lemma step_bind {A B} (m : M A) (k : A -> M B) :
  keeps R m -> (forall a, keeps R (k a)) -> keeps R (bind m k).
Proof.
  intros Hm Hk s. unfold bind. specialize (Hm s).
  destruct (m s) as [[a | e] s1]; cbn [snd] in *; [|exact Hm].
  eapply steps_trans; [exact Hm | apply Hk].
Qed.

(** What follows a [raise] is not run. *)
Lemma step_bind_raise {A B} (e : exn) (k : A -> M B) :
  keeps R (bind (raise e) k).
Proof. intros s. apply steps_refl. Qed.

Lemma step_try_except {A} (m : M A) (h : exn -> M A) :
  keeps R m -> (forall e, keeps R (h e)) -> keeps R (try_except m h).
Proof.
  intros Hm Hh s. unfold try_except. specialize (Hm s).
  destruct (m s) as [[a | e] s1]; cbn [snd] in *; [exact Hm|].
  eapply steps_trans; [exact Hm | apply Hh].
Qed.

Lemma step_try_finally {A} (m : M A) (fin : M unit) :
  keeps R m -> keeps R fin -> keeps R (try_finally m fin).
Proof.
  intros Hm Hf s. unfold try_finally. specialize (Hm s).
  destruct (m s) as [r s1]. specialize (Hf s1).
  destruct (fin s1) as [[u | e] s2]; cbn [snd] in *;
    eapply steps_trans; eassumption.
Qed.

Lemma step_for_each {A} (l : list A) (body : A -> M unit) :
  (forall x, keeps R (body x)) -> keeps R (for_each l body).
Proof.
  intros Hb. induction l as [|x l IH]; cbn [for_each].
  - apply step_ret.
  - apply step_bind; [apply Hb | intros _; exact IH].
Qed.

Lemma step_outcome : keeps R outcome.
Proof.
  intros s. unfold outcome.
  destruct (outcomes s) as [|[e|] o]; cbn [snd];
    [apply steps_refl | apply steps_outcomes | apply steps_outcomes].
Qed.

Lemma step_log (l : level) : bad (logger l) = false -> keeps R (log l).
Proof. intros H s. apply steps_record, H. Qed.

Lemma step_call (ev : event) : bad ev = false -> keeps R (call ev).
Proof.
  intros H. unfold call. apply step_bind.
  - intros s. apply steps_record, H.
  - intros _. apply step_outcome.
Qed.

Lemma step_bot_send_message (chat : Z) (m : message) :
  bad (send_message chat m) = false -> keeps R (bot_send_message chat m).
Proof.
  intros H. unfold bot_send_message. apply step_bind.
  - apply step_call, H.
  - intros _ s. apply steps_next_mid.
Qed.

Lemma step_from_mp3 (f : path) :
  bad (from_mp3 f) = false -> keeps R (AudioSegment_from_mp3 f).
Proof.
  intros H. unfold AudioSegment_from_mp3. apply step_bind.
  - apply step_call, H.
  - intros _. apply step_ret.
Qed.

Lemma step_speedup (a : audio) (sp : speed) :
  bad (speedup a sp) = false -> keeps R (audio_speedup a sp).
Proof.
  intros H. unfold audio_speedup. apply step_bind.
  - apply step_call, H.
  - intros _. apply step_ret.
Qed.

Lemma step_getsize (f : path) :
  bad (getsize f) = false -> keeps R (os_path_getsize f).
Proof.
  intros H. unfold os_path_getsize. apply step_bind.
  - apply step_call, H.
  - intros _ s. apply steps_refl.
Qed.

Lemma step_get_user_speed (user_id : Z) : keeps R (get_user_speed user_id).
Proof. intros s. apply steps_refl. Qed.

Lemma step_safe_edit_message (chat mid : Z) (text : message) :
  bad (edit_message_text text chat mid) = false ->
  bad (logger WARNING) = false ->
  keeps R (_safe_edit_message chat mid text).
Proof.
  intros He Hw. unfold _safe_edit_message. apply step_try_except.
  - apply step_call, He.
  - intros e. destruct (negb _); [apply step_log, Hw | apply step_ret].
Qed.

Lemma step_new_temp_file (sfx : suffix) :
  (forall f, bad (NamedTemporaryFile f sfx) = false) ->
  keeps R (new_temp_file sfx).
Proof.
  intros H s. unfold new_temp_file, mktemp, outcome, bind.
  destruct (outcomes s) as [|[e|] o]; cbn [snd].
  - eapply steps_trans; [|apply steps_temp_files].
    eapply steps_trans; [apply steps_fs | apply steps_record, H].
  - apply steps_outcomes.
  - eapply steps_trans; [apply steps_outcomes|].
    eapply steps_trans; [|apply steps_temp_files].
    eapply steps_trans; [apply steps_fs | apply steps_record, H].
Qed.

Lemma step_reset : keeps R reset_temp_files.
Proof. intros s. apply steps_temp_files. Qed.

Lemma step_cleanup :
  (forall f, bad (os_remove f) = false) -> bad (logger DEBUG) = false ->
  keeps R cleanup.
Proof.
  intros Hr Hd s0. unfold cleanup.
  apply (step_for_each (temp_files s0) remove_if_exists).
  intros f s. unfold remove_if_exists, bind, os_path_exists.
  destruct (existsb (Nat.eqb f) (fs s)); cbn [snd]; [|apply steps_refl].
  revert s. change (keeps R (os_remove_file f ;; log DEBUG)).
  apply step_bind; [|intros _; apply step_log, Hd].
  unfold os_remove_file.
  apply step_bind; [apply step_call, Hr | intros _ s; apply steps_fs].
Qed.

End StepsFacts.

(** One step of a proof that a piece of the pipeline makes no call in
    [bad]; the side conditions are settled by computation. *)
Ltac step_one :=
  lazymatch goal with
  | |- keeps _ (ret _) => apply step_ret
  | |- keeps _ (raise _) => apply step_raise
  | |- keeps _ (log _) => apply step_log; reflexivity
  | |- keeps _ (call _) => apply step_call; reflexivity
  | |- keeps _ (_safe_edit_message _ _ _) =>
      apply step_safe_edit_message; reflexivity
  | |- keeps _ (bot_send_message _ _) =>
      apply step_bot_send_message; reflexivity
  | |- keeps _ (AudioSegment_from_mp3 _) => apply step_from_mp3; reflexivity
  | |- keeps _ (audio_speedup _ _) => apply step_speedup; reflexivity
  | |- keeps _ (os_path_getsize _) => apply step_getsize; reflexivity
  | |- keeps _ (get_user_speed _) => apply step_get_user_speed
  | |- keeps _ (new_temp_file _) =>
      apply step_new_temp_file; intros; reflexivity
  | |- keeps _ reset_temp_files => apply step_reset
  | |- keeps _ cleanup => apply step_cleanup; intros; reflexivity
  | |- keeps _ (bind (raise _) _) => apply step_bind_raise
  | |- keeps _ (bind _ _) => apply step_bind; [|intros ?]
  | |- keeps _ (try_except _ _) => apply step_try_except; [|intros ?]
  | |- keeps _ (try_finally _ _) => apply step_try_finally
  | |- keeps _ (if ?b then _ else _) => destruct b
  | |- keeps _ (match ?x with _ => _ end) => destruct x
  end.

#[local] Instance avoids_steps (bad : event -> bool) : Steps bad (avoids bad).
Proof.
  split.
  - intros s. exists []. split; [apply extends_refl | reflexivity].
  - intros a b c (e1 & X1 & H1) (e2 & X2 & H2). exists (e1 ++ e2).
    split; [eapply extends_trans; eassumption|].
    rewrite existsb_app, H1, H2. reflexivity.
  - intros ev s H. exists [ev]. split; [reflexivity|].
    cbn. rewrite H. reflexivity.
  - intros o s. exists []. split; [apply extends_same|]; reflexivity.
  - intros n s. exists []. split; [apply extends_same|]; reflexivity.
  - intros f s. exists []. split; [apply extends_same|]; reflexivity.
  - intros t s. exists []. split; [apply extends_same|]; reflexivity.
Qed.

#[local] Instance avoids_at_steps (bad : event -> bool) (bytes : Z) :
  Steps bad (avoids_at bad bytes).
Proof.
  split.
  - intros s H. split; [exact H | apply steps_refl].
  - intros a b c Hab Hbc Ha. destruct (Hab Ha) as [Hb H1].
    destruct (Hbc Hb) as [Hc H2]. split; [exact Hc|].
    eapply steps_trans; eassumption.
  - intros ev s H Hs. split; [exact Hs | apply steps_record, H].
  - intros o s Hs. split; [exact Hs | apply steps_outcomes].
  - intros n s Hs. split; [exact Hs | apply steps_next_mid].
  - intros f s Hs. split; [exact Hs | apply steps_fs].
  - intros t s Hs. split; [exact Hs | apply steps_temp_files].
Qed.

Lemma avoids_since (bad : event -> bool) (s s' : state) :
  avoids bad s s' -> existsb bad (since s s') = false.
Proof. intros (evs & X & H). rewrite (since_extends s s' evs X). exact H. Qed.

Lemma bind_run {A B} (m : M A) (k : A -> M B) (s : state) :
  bind m k s
  = match m s with
    | (Ok a, s') => k a s'
    | (Raise e, s') => (Raise e, s')
    end.
Proof. reflexivity. Qed.

Lemma step_bind_ret {bad : event -> bool} {R : state -> state -> Prop}
    {HS : Steps bad R} {A B} (a : A) (k : A -> M B) :
  keeps R (k a) -> keeps R (bind (ret a) k).
Proof. intros H s. exact (H s). Qed.

(** The size read is the size the run began with. *)
Lemma step_getsize_at (bad : event -> bool) (bytes : Z) (f : path) {B}
    (k : Z -> M B) :
  bad (getsize f) = false ->
  keeps (avoids_at bad bytes) (k bytes) ->
  keeps (avoids_at bad bytes) (bind (os_path_getsize f) k).
Proof.
  intros Hb Hk s Hs.
  destruct (step_getsize (R := avoids_at bad bytes) f Hb s Hs) as [Hs1 H1].
  rewrite (bind_run (os_path_getsize f) k s).
  assert (Hval : forall z s1, os_path_getsize f s = (Ok z, s1) -> z = bytes).
  { unfold os_path_getsize, call, outcome, bind.
    destruct (outcomes (record (getsize f) s)) as [|[e|] o];
      intros z s1 E; inversion E; exact Hs. }
  destruct (os_path_getsize f s) as [[z | e] s1]; cbn [snd] in *.
  - rewrite (Hval z s1 eq_refl). destruct (Hk s1 Hs1) as [Hs2 H2].
    split; [exact Hs2 | eapply steps_trans; eassumption].
  - split; assumption.
Qed.

(** *** The size guard of the multi-chunk path *)

Lemma chunk_loop_sends_nothing (bytes chat mid total : Z) (chunks : list str) :
  forall i segs,
  keeps (avoids_at is_send_voice bytes)
    (chunk_loop chat mid total chunks i segs).
Proof.
  induction chunks as [|chunk rest IH]; intros i segs; cbn [chunk_loop].
  - step_one.
  - do 6 (apply step_bind; [repeat step_one | intros ?]). apply IH.
Qed.

Lemma multiple_chunks_guard_keeps (bytes chat : Z) (chunks : list str)
    (title : str) (sp : speed) :
  too_large bytes = true ->
  keeps (avoids_at is_send_voice bytes)
    (_convert_multiple_chunks chat chunks title sp).
Proof.
  intros Hbig. unfold _convert_multiple_chunks.
  do 3 (apply step_bind; [repeat step_one | intros ?]).
  apply step_try_finally; [|step_one].
  unfold multiple_chunks_try.
  apply step_try_except; [|intros e; repeat step_one].
  apply step_bind; [apply chunk_loop_sends_nothing | intros segs].
  do 6 (apply step_bind; [repeat step_one | intros ?]).
  apply step_getsize_at; [reflexivity|].
  rewrite Hbig. repeat step_one.
Qed.

(** The multi-chunk path never sends an artifact above the ceiling: when
    the codec writes more than [TELEGRAM_MAX_AUDIO_SIZE_MB] megabytes, no
    run of [_convert_multiple_chunks] calls [bot.send_voice], whatever the
    chunks and whichever calls fail. *)
Theorem multiple_chunks_never_send_oversized (chat : Z) (chunks : list str)
    (title : str) (sp : speed) (s : state) :
  too_large (encoded_bytes s) = true ->
  existsb is_send_voice
    (since s (snd (_convert_multiple_chunks chat chunks title sp s))) = false.
Proof.
  intros Hbig. apply avoids_since.
  apply (multiple_chunks_guard_keeps (encoded_bytes s) chat chunks title sp
           Hbig s eq_refl).
Qed.

Lemma multiple_chunks_never_send_oversized_witness :
  existsb is_send_voice
    (since (initial [] (60 * 1024 * 1024))
       (snd (_convert_multiple_chunks 7
               [of_string "one"; of_string "two"] []
               (QArith_base.Qmake 1 1) (initial [] (60 * 1024 * 1024)))))
  = false.
Proof. apply multiple_chunks_never_send_oversized. reflexivity. Defined.

(** *** A job with no chunk *)

(** With an empty list of chunks the multi-chunk path makes no temporary
    file, synthesises nothing and sends no voice: [audio_segments[0]]
    raises, and the [except] clause turns that into the error notice. *)
Theorem no_chunk_no_conversion (chat : Z) (title : str) (sp : speed)
    (s : state) :
  existsb is_conversion
    (since s (snd (_convert_multiple_chunks chat [] title sp s))) = false.
Proof.
  apply avoids_since. revert s.
  change (keeps (avoids is_conversion)
            (_convert_multiple_chunks chat [] title sp)).
  unfold _convert_multiple_chunks.
  do 3 (apply step_bind; [repeat step_one | intros ?]).
  apply step_try_finally; [|step_one].
  unfold multiple_chunks_try. cbn [chunk_loop].
  apply step_try_except; [|intros e; repeat step_one].
  apply step_bind_ret.
  apply step_bind; [step_one | intros _].
  apply step_bind_raise.
Qed.

(** *** The single-chunk path shows no progress *)

(** [_convert_single_chunk] never sends, edits or deletes a message: a
    job of one chunk has no progress message, whichever calls fail. *)
Theorem single_chunk_has_no_progress_message (chat : Z) (text title : str)
    (sp : speed) (s : state) :
  existsb is_progress_message
    (since s (snd (_convert_single_chunk chat text title sp s))) = false.
Proof.
  apply avoids_since. revert s.
  change (keeps (avoids is_progress_message)
            (_convert_single_chunk chat text title sp)).
  unfold _convert_single_chunk, single_chunk_try. repeat step_one.
Qed.

(** *** Normal speed *)

Lemma chunk_loop_no_speedup (chat mid total : Z) (chunks : list str) :
  forall i segs,
  keeps (avoids is_speedup) (chunk_loop chat mid total chunks i segs).
Proof.
  induction chunks as [|chunk rest IH]; intros i segs; cbn [chunk_loop].
  - step_one.
  - do 6 (apply step_bind; [repeat step_one | intros ?]). apply IH.
Qed.

(** At speed [1.0] neither path asks the codec for a speed-up: the audio
    is exported as it was decoded and concatenated. *)
Theorem normal_speed_is_no_speedup (chat : Z) (text title : str)
    (chunks : list str) (sp : speed) (s : state) :
  is_normal sp = true ->
  existsb is_speedup
    (since s (snd (_convert_single_chunk chat text title sp s))) = false
  /\ existsb is_speedup
       (since s (snd (_convert_multiple_chunks chat chunks title sp s)))
     = false.
Proof.
  intros Hn. split; apply avoids_since; revert s.
  - change (keeps (avoids is_speedup)
              (_convert_single_chunk chat text title sp)).
    unfold _convert_single_chunk, single_chunk_try. rewrite Hn. cbn [negb].
    repeat step_one.
  - change (keeps (avoids is_speedup)
              (_convert_multiple_chunks chat chunks title sp)).
    unfold _convert_multiple_chunks.
    do 3 (apply step_bind; [repeat step_one | intros ?]).
    apply step_try_finally; [|step_one].
    unfold multiple_chunks_try. rewrite Hn. cbn [negb].
    apply step_try_except; [|intros e; repeat step_one].
    apply step_bind; [apply chunk_loop_no_speedup | intros segs].
    repeat step_one.
Qed.

Lemma normal_speed_is_no_speedup_witness :
  existsb is_speedup
    (since (initial [] 0)
       (snd (_convert_single_chunk 7 (of_string "hello") [] normal_speed
               (initial [] 0)))) = false
  /\ existsb is_speedup
       (since (initial [] 0)
          (snd (_convert_multiple_chunks 7
                  [of_string "one"; of_string "two"] [] normal_speed
                  (initial [] 0))))
     = false.
Proof. apply normal_speed_is_no_speedup. reflexivity. Defined.

(* ================================================================== *)
(** ** The handlers: what reaches the pipeline, what leaves it *)
(* ================================================================== *)

Lemma chunk_loop_only_appends (chat mid total : Z) (chunks : list str) :
  forall i segs,
  keeps (avoids nothing) (chunk_loop chat mid total chunks i segs).
Proof.
  induction chunks as [|chunk rest IH]; intros i segs; cbn [chunk_loop].
  - step_one.
  - do 6 (apply step_bind; [repeat step_one | intros ?]). apply IH.
Qed.

Lemma convert_only_appends (chat : Z) (text title : str)
    (user_id : option Z) (sp : speed) :
  keeps (avoids nothing) (convert_text_to_speech chat text title user_id sp).
Proof.
  unfold convert_text_to_speech.
  destruct (MAX_TEXT_LENGTH <? len text); [repeat step_one|].
  apply step_bind; [repeat step_one | intros sp'].
  destruct (_ =? 1).
  - unfold _convert_single_chunk, single_chunk_try. repeat step_one.
  - unfold _convert_multiple_chunks.
    do 3 (apply step_bind; [repeat step_one | intros ?]).
    apply step_try_finally; [|step_one].
    unfold multiple_chunks_try.
    apply step_try_except; [|intros e; repeat step_one].
    apply step_bind; [apply chunk_loop_only_appends | intros segs].
    repeat step_one.
Qed.

Lemma try_except_run {A} (m : M A) (h : exn -> M A) (s : state) :
  try_except m h s
  = match m s with
    | (Ok a, s') => (Ok a, s')
    | (Raise e, s') => h e s'
    end.
Proof. reflexivity. Qed.

(** A handler that raises does so from its apology, the last call it
    makes after it logged the error. *)
Lemma handler_raises_from_apology (body : M unit) (r : reply) (s : state)
    (e : exn) :
  keeps (avoids nothing) body ->
  fst (try_except body (fun _ => log ERROR ;; call (reply_to r)) s)
  = Raise e ->
  exists evs,
    since s (snd (try_except body
                    (fun _ => log ERROR ;; call (reply_to r)) s))
    = evs ++ [reply_to r].
Proof.
  intros Hb. specialize (Hb s). rewrite try_except_run.
  destruct (body s) as [[u | e0] s1]; [discriminate|].
  cbn [snd] in Hb. destruct Hb as (evs & X & _). intros _.
  exists (evs ++ [logger ERROR]).
  apply since_extends. unfold extends in *.
  unfold bind, log, call, outcome, bind.
  destruct (outcomes _) as [|[e'|] o]; cbn; rewrite X, <- !app_assoc;
    reflexivity.
Qed.

(** No exception of the pipeline leaves [handle_text_message]: when the
    handler raises, the last call it made is the reply that apologises
    for the failed conversion, and it is that reply which raised. *)
Theorem text_handler_raises_only_from_apology (chat user : Z) (text : str)
    (s : state) (e : exn) :
  fst (handle_text_message chat user text s) = Raise e ->
  exists evs,
    since s (snd (handle_text_message chat user text s))
    = evs ++ [reply_to ErrorConverting].
Proof.
  unfold handle_text_message. apply handler_raises_from_apology.
  destruct (blank text); repeat step_one.
  apply convert_only_appends.
Qed.

Lemma text_handler_raises_only_from_apology_witness :
  exists evs,
    since (initial [Some []; Some []] 0)
      (snd (handle_text_message 7 8 [] (initial [Some []; Some []] 0)))
    = evs ++ [reply_to ErrorConverting].
Proof.
  apply (text_handler_raises_only_from_apology 7 8 []
           (initial [Some []; Some []] 0) []).
  vm_compute. reflexivity.
Defined.

(** The same for [handle_document] and its own apology. *)
Theorem document_handler_raises_only_from_apology (chat user : Z)
    (file_name file_path : option str) (downloaded_file : bytes) (s : state)
    (e : exn) :
  fst (handle_document chat user file_name file_path downloaded_file s)
  = Raise e ->
  exists evs,
    since s (snd (handle_document chat user file_name file_path
                    downloaded_file s))
    = evs ++ [reply_to ErrorProcessingFile].
Proof.
  unfold handle_document. apply handler_raises_from_apology.
  destruct file_name as [name|]; [|step_one].
  destruct (negb (endswith name _)); [step_one|].
  do 3 (apply step_bind; [repeat step_one | intros _]).
  destruct (negb _); [step_one|].
  apply step_bind; [step_one | intros _].
  destruct (decode_document downloaded_file) as [text|]; [|step_one].
  destruct (blank text); [step_one|].
  apply step_bind; [step_one | intros _].
  apply convert_only_appends.
Qed.

Lemma document_handler_raises_only_from_apology_witness :
  exists evs,
    since (initial [Some []] 0)
      (snd (handle_document 7 8 None None [] (initial [Some []] 0)))
    = evs ++ [reply_to ErrorProcessingFile].
Proof.
  apply (document_handler_raises_only_from_apology 7 8 None None []
           (initial [Some []] 0) []).
  vm_compute. reflexivity.
Defined.

(** [handle_text_message] starts a conversion (a temporary file, a
    synthesis, a voice sent) only for a text that is not blank. *)
Theorem text_conversion_needs_text (chat user : Z) (text : str) (s : state) :
  existsb is_conversion
    (since s (snd (handle_text_message chat user text s))) = true ->
  blank text = false.
Proof.
  intros H. destruct (blank text) eqn:Hblank; [|reflexivity].
  assert (Hk : keeps (avoids is_conversion)
                 (handle_text_message chat user text)).
  { unfold handle_text_message. rewrite Hblank. repeat step_one. }
  rewrite (avoids_since _ _ _ (Hk s)) in H. discriminate.
Qed.

Lemma text_conversion_needs_text_witness :
  blank (of_string "hello") = false.
Proof.
  apply (text_conversion_needs_text 7 8 (of_string "hello") (initial [] 0)).
  vm_compute. reflexivity.
Defined.

(** [handle_document] starts a conversion only for a document whose name
    ends in [.txt], that has a download path, and whose decoded text is
    not blank; for the others it fetches or converts nothing more than
    its guards allow. *)
Theorem document_conversion_needs_text_file (chat user : Z)
    (file_name file_path : option str) (downloaded_file : bytes) (s : state) :
  existsb is_conversion
    (since s (snd (handle_document chat user file_name file_path
                     downloaded_file s))) = true ->
  exists name p text,
    file_name = Some name /\ endswith name (of_string ".txt") = true
    /\ file_path = Some p /\ truthy p = true
    /\ decode_document downloaded_file = Some text /\ blank text = false.
Proof.
  intros H.
  assert (Hno : keeps (avoids is_conversion)
                  (handle_document chat user file_name file_path
                     downloaded_file) -> False).
  { intros Hk. rewrite (avoids_since _ _ _ (Hk s)) in H. discriminate. }
  destruct file_name as [name|];
    [|exfalso; apply Hno; unfold handle_document; solve [repeat step_one]].
  destruct (endswith name (of_string ".txt")) eqn:Hext;
    [|exfalso; apply Hno; unfold handle_document; rewrite Hext; cbn [negb];
      solve [repeat step_one]].
  destruct file_path as [p|];
    [|exfalso; apply Hno; unfold handle_document; rewrite Hext; cbn [negb];
      solve [repeat step_one]].
  destruct (truthy p) eqn:Hp;
    [|exfalso; apply Hno; unfold handle_document; rewrite Hext; cbn [negb];
      rewrite Hp; cbn [negb]; solve [repeat step_one]].
  destruct (decode_document downloaded_file) as [text|] eqn:Hdec;
    [|exfalso; apply Hno; unfold handle_document; rewrite Hext; cbn [negb];
      rewrite Hp, Hdec; cbn [negb]; solve [repeat step_one]].
  destruct (blank text) eqn:Hblank;
    [exfalso; apply Hno; unfold handle_document; rewrite Hext; cbn [negb];
     rewrite Hp, Hdec, Hblank; cbn [negb]; solve [repeat step_one]|].
  exists name, p, text. repeat split; (assumption || reflexivity).
Qed.

Lemma document_conversion_needs_text_file_witness :
  exists name p text,
    Some (of_string "a.txt") = Some name
    /\ endswith name (of_string ".txt") = true
    /\ Some (of_string "p") = Some p /\ truthy p = true
    /\ decode_document [Byte.x68; Byte.x69] = Some text
    /\ blank text = false.
Proof.
  apply (document_conversion_needs_text_file 7 8 (Some (of_string "a.txt"))
           (Some (of_string "p")) [Byte.x68; Byte.x69] (initial [] 0)).
  vm_compute. reflexivity.
Defined.

(* ================================================================== *)
(** ** The handlers: the decoded text *)
(* ================================================================== *)

Lemma option_map_cons_some (c : char) (o : option str) (s : str) :
  option_map (cons c) o = Some s -> exists s', o = Some s' /\ s = c :: s'.
Proof.
  destruct o as [s'|]; cbn; intros H; [|discriminate].
  inversion H. eauto.
Qed.

Lemma decode_utf8_length (n : nat) :
  forall (b : bytes) (s : str),
  (length b <= n)%nat -> decode_utf8 b = Some s ->
  (length s <= length b)%nat.
Proof.
  induction n as [|n IH]; intros b s Hn H.
  - destruct b; [|cbn in Hn; lia]. inversion H. cbn. lia.
  - destruct b as [|b0 r0]; [inversion H; cbn; lia|].
    cbn [decode_utf8] in H. cbn zeta in H. cbn [length] in *.
    repeat match type of H with
           | (if ?c then _ else _) = Some _ =>
               destruct c; [|try discriminate H]
           | match ?l with | [] => _ | _ :: _ => _ end = Some _ =>
               destruct l; [discriminate H|]; cbn [length] in *
           end;
      try (apply option_map_cons_some in H; destruct H as [s' [H ->]];
           apply IH in H; cbn [length] in *; lia).
Qed.

Lemma decode_utf8_ascii (b : bytes) :
  Forall (fun x => (Byte.to_N x < 128)%N) b ->
  decode_utf8 b = Some (map Byte.to_N b).
Proof.
  induction 1 as [|x b Hx _ IH]; [reflexivity|].
  cbn [decode_utf8 map]. cbn zeta.
  apply N.ltb_lt in Hx. rewrite Hx, IH. reflexivity.
Qed.

(** The decoded text has no more characters than the file has bytes. *)
Theorem decoded_text_is_no_longer_than_file (downloaded_file : bytes)
    (text : str) :
  decode_document downloaded_file = Some text ->
  len text <= Z.of_nat (length downloaded_file).
Proof.
  unfold decode_document, decode_latin1, len.
  destruct (decode_utf8 downloaded_file) as [s|] eqn:E; intros H;
    inversion H; subst.
  - apply (decode_utf8_length (length downloaded_file)) in E; lia.
  - rewrite length_map. lia.
Qed.

Lemma decoded_text_is_no_longer_than_file_witness :
  len [97%N; 2404%N] <= Z.of_nat (length [Byte.x61; Byte.xe0; Byte.xa5; Byte.xa4]).
Proof.
  apply decoded_text_is_no_longer_than_file. vm_compute. reflexivity.
Defined.

(** A file of ASCII bytes is read as it is, one character a byte, by the
    first of the two decodings. *)
Theorem ascii_file_is_read_as_it_is (downloaded_file : bytes) :
  Forall (fun x => (Byte.to_N x < 128)%N) downloaded_file ->
  decode_document downloaded_file = Some (map Byte.to_N downloaded_file).
Proof.
  intros H. unfold decode_document. rewrite (decode_utf8_ascii _ H).
  reflexivity.
Qed.

Lemma ascii_file_is_read_as_it_is_witness :
  decode_document [Byte.x68; Byte.x69]
  = Some (map Byte.to_N [Byte.x68; Byte.x69]).
Proof.
  apply ascii_file_is_read_as_it_is. repeat constructor.
Defined.

Lemma chunk_loop_no_too_long_notice (chat mid total : Z) (chunks : list str) :
  forall i segs,
  keeps (avoids is_too_long_notice) (chunk_loop chat mid total chunks i segs).
Proof.
  induction chunks as [|chunk rest IH]; intros i segs; cbn [chunk_loop].
  - step_one.
  - do 6 (apply step_bind; [repeat step_one | intros ?]). apply IH.
Qed.

Lemma short_text_no_too_long_notice (chat : Z) (text title : str)
    (user_id : option Z) (sp : speed) :
  len text <= MAX_TEXT_LENGTH ->
  keeps (avoids is_too_long_notice)
    (convert_text_to_speech chat text title user_id sp).
Proof.
  intros Hlen. unfold convert_text_to_speech.
  apply Z.ltb_ge in Hlen. rewrite Hlen.
  apply step_bind; [repeat step_one | intros sp'].
  destruct (_ =? 1).
  - unfold _convert_single_chunk, single_chunk_try. repeat step_one.
  - unfold _convert_multiple_chunks.
    do 3 (apply step_bind; [repeat step_one | intros ?]).
    apply step_try_finally; [|step_one].
    unfold multiple_chunks_try.
    apply step_try_except; [|intros e; repeat step_one].
    apply step_bind; [apply chunk_loop_no_too_long_notice | intros segs].
    repeat step_one.
Qed.

(** An uploaded file of at most 100,000 bytes is never refused as too
    long, whatever its encoding: the text has no more characters than
    the file has bytes. *)
Theorem small_file_is_never_too_long (chat user : Z)
    (file_name file_path : option str) (downloaded_file : bytes) (s : state) :
  Z.of_nat (length downloaded_file) <= MAX_TEXT_LENGTH ->
  existsb is_too_long_notice
    (since s (snd (handle_document chat user file_name file_path
                     downloaded_file s))) = false.
Proof.
  intros Hsize. apply avoids_since. revert s.
  change (keeps (avoids is_too_long_notice)
            (handle_document chat user file_name file_path downloaded_file)).
  unfold handle_document.
  apply step_try_except; [|intros e; repeat step_one].
  destruct file_name as [name|]; [|step_one].
  destruct (negb (endswith name _)); [step_one|].
  do 3 (apply step_bind; [repeat step_one | intros _]).
  destruct (negb _); [step_one|].
  apply step_bind; [step_one | intros _].
  destruct (decode_document downloaded_file) as [text|] eqn:Hdec; [|step_one].
  destruct (blank text); [step_one|].
  apply step_bind; [step_one | intros _].
  apply short_text_no_too_long_notice.
  pose proof (decoded_text_is_no_longer_than_file _ _ Hdec). lia.
Qed.

Lemma small_file_is_never_too_long_witness :
  existsb is_too_long_notice
    (since (initial [] 0)
       (snd (handle_document 7 8 (Some (of_string "a.txt"))
               (Some (of_string "p")) [Byte.x68; Byte.x69] (initial [] 0))))
  = false.
Proof.
  apply small_file_is_never_too_long. vm_compute. discriminate.
Defined.

(* ================================================================== *)
(** ** The progress reporter: the error it ignores *)
(* ================================================================== *)

Lemma starts_with_app (p s : str) : starts_with p (p ++ s) = true.
Proof.
  induction p as [|c p IH]; [destruct s; reflexivity|].
  cbn [app starts_with]. rewrite N.eqb_refl. exact IH.
Qed.

Lemma contains_app (p a b : str) : contains p (a ++ p ++ b) = true.
Proof.
  induction a as [|c a IH].
  - cbn [app]. destruct (p ++ b) eqn:E; cbn [contains];
      rewrite <- E, starts_with_app; reflexivity.
  - cbn [app contains]. rewrite IH. apply orb_true_r.
Qed.

Lemma lower_app (a b : str) : lower (a ++ b) = lower a ++ lower b.
Proof. apply map_app. Qed.

(** The rejection of an edit that changes nothing is swallowed in
    silence, in whatever case the backend words it: when the text of the
    exception holds "message is not modified", upper or lower case, the
    reporter returns with the one call made and no warning logged. *)
Theorem not_modified_error_is_silent (chat mid : Z) (text : message)
    (s : state) (before wording after : str) (o : list (option exn)) :
  outcomes s = Some (before ++ wording ++ after) :: o ->
  lower wording = not_modified ->
  fst (_safe_edit_message chat mid text s) = Ok tt
  /\ since s (snd (_safe_edit_message chat mid text s))
     = [edit_message_text text chat mid].
Proof.
  intros Ho Hw.
  unfold _safe_edit_message, try_except, call, outcome, bind.
  cbn [outcomes record]. rewrite Ho.
  rewrite !lower_app, Hw, contains_app. cbn [negb].
  split; [reflexivity|]. apply since_extends. reflexivity.
Qed.

Lemma not_modified_error_is_silent_witness :
  fst (_safe_edit_message 7 1 Combining
         (initial [Some (of_string "Bad Request: " ++
                         of_string "Message Is Not Modified" ++ [])] 0))
  = Ok tt
  /\ since (initial [Some (of_string "Bad Request: " ++
                           of_string "Message Is Not Modified" ++ [])] 0)
       (snd (_safe_edit_message 7 1 Combining
               (initial [Some (of_string "Bad Request: " ++
                               of_string "Message Is Not Modified" ++ [])] 0)))
     = [edit_message_text Combining 7 1].
Proof.
  apply (not_modified_error_is_silent 7 1 Combining _
           (of_string "Bad Request: ") (of_string "Message Is Not Modified")
           [] []); reflexivity.
Defined.

(** Any other failure of the edit is logged as a warning, and swallowed
    as well. *)
Theorem other_edit_error_is_logged (chat mid : Z) (text : message)
    (s : state) (e : exn) (o : list (option exn)) :
  outcomes s = Some e :: o ->
  contains not_modified (lower e) = false ->
  fst (_safe_edit_message chat mid text s) = Ok tt
  /\ since s (snd (_safe_edit_message chat mid text s))
     = [edit_message_text text chat mid; logger WARNING].
Proof.
  intros Ho Hc.
  unfold _safe_edit_message, try_except, call, outcome, bind.
  cbn [outcomes record]. rewrite Ho, Hc. cbn [negb].
  split; [reflexivity|]. apply since_extends.
  unfold extends. cbn. rewrite <- app_assoc. reflexivity.
Qed.

Lemma other_edit_error_is_logged_witness :
  fst (_safe_edit_message 7 1 Combining
         (initial [Some (of_string "timed out")] 0)) = Ok tt
  /\ since (initial [Some (of_string "timed out")] 0)
       (snd (_safe_edit_message 7 1 Combining
               (initial [Some (of_string "timed out")] 0)))
     = [edit_message_text Combining 7 1; logger WARNING].
Proof.
  apply (other_edit_error_is_logged 7 1 Combining _ (of_string "timed out") []);
    reflexivity.
Defined.

(* ================================================================== *)
(** ** The chunker: the characters of the text *)
(* ================================================================== *)

Lemma solid_app (a b : str) : solid (a ++ b) = solid a ++ solid b.
Proof. apply filter_app. Qed.

Lemma solid_whitespace (s : str) :
  Forall (fun c => isspace c = true) s -> solid s = [].
Proof.
  induction 1 as [|c s Hc _ IH]; [reflexivity|].
  cbn [solid filter]. rewrite Hc. exact IH.
Qed.

Lemma solid_nospace (s : str) : nospace s -> solid s = s.
Proof.
  induction 1 as [|c s Hc _ IH]; [reflexivity|].
  cbn [solid filter]. rewrite Hc. cbn [negb]. f_equal. exact IH.
Qed.

Lemma solid_nil_whitespace (s : str) :
  solid s = [] -> Forall (fun c => isspace c = true) s.
Proof.
  induction s as [|c s IH]; [constructor|].
  cbn [solid filter]. destruct (isspace c) eqn:Hc; cbn [negb].
  - intros H. constructor; [exact Hc | apply IH, H].
  - discriminate.
Qed.

Lemma solid_lstrip (s : str) : solid (lstrip s) = solid s.
Proof.
  destruct (lstrip_split_off s) as [sp [E F]].
  rewrite E at 2. rewrite solid_app, (solid_whitespace sp F). reflexivity.
Qed.

Lemma solid_rstrip (s : str) : solid (rstrip s) = solid s.
Proof.
  destruct (rstrip_split_off s) as [sp [E F]].
  rewrite E at 2. rewrite solid_app, (solid_whitespace sp F), app_nil_r.
  reflexivity.
Qed.

Lemma solid_strip (s : str) : solid (strip s) = solid s.
Proof. unfold strip. rewrite solid_rstrip. apply solid_lstrip. Qed.

Lemma solid_split (s : str) : solid (concat (split s)) = solid s.
Proof.
  induction s as [|c s IH]; [reflexivity|].
  rewrite split_cons. cbn [solid filter].
  destruct (isspace c) eqn:Hc; cbn [negb]; [exact IH|].
  fold (solid s). rewrite <- IH.
  destruct (soft s).
  - cbn [concat app solid filter]. rewrite Hc. reflexivity.
  - destruct (split s) as [|w ws]; cbn [concat app solid filter];
      rewrite Hc; reflexivity.
Qed.

Lemma solid_append_stripped (chunks : list str) (c : str) :
  solid (concat (append_stripped chunks c))
  = solid (concat chunks) ++ solid c.
Proof.
  unfold append_stripped. destruct c as [|c0 c']; cbn [truthy].
  - symmetry. apply app_nil_r.
  - rewrite concat_app, solid_app. cbn [concat].
    rewrite app_nil_r, solid_strip. reflexivity.
Qed.

Lemma word_step_solid (max_length : Z) (st : list str * str) (w : str) :
  solid_of (word_step max_length st w) = solid_of st ++ solid w.
Proof.
  destruct st as [chunks temp]. unfold word_step, solid_of.
  destruct (len temp + len w + 1 <=? max_length); cbn [fst snd].
  - rewrite !solid_app, <- app_assoc. f_equal. f_equal.
    destruct temp; reflexivity.
  - rewrite solid_append_stripped. reflexivity.
Qed.

Lemma word_loop_solid (max_length : Z) (ws : list str) :
  forall st,
  solid_of (fold_left (word_step max_length) ws st)
  = solid_of st ++ solid (concat ws).
Proof.
  induction ws as [|w ws IH]; intros st.
  - symmetry. apply app_nil_r.
  - cbn [fold_left concat]. rewrite IH, word_step_solid, solid_app.
    rewrite <- app_assoc. reflexivity.
Qed.

Lemma sentence_step_solid (max_length : Z) (st : list str * str)
    (sentence separator : str) :
  solid_of (sentence_step max_length st sentence separator)
  = solid_of st ++ solid (sentence ++ separator).
Proof.
  destruct st as [chunks current]. unfold sentence_step.
  destruct (len current + len (sentence ++ separator) <=? max_length).
  - unfold solid_of. cbn [fst snd]. rewrite solid_app, app_assoc.
    reflexivity.
  - destruct (max_length <? len (sentence ++ separator)).
    + rewrite word_loop_solid, solid_split. unfold solid_of. cbn [fst snd].
      rewrite solid_append_stripped. cbn [solid filter].
      rewrite app_nil_r. reflexivity.
    + unfold solid_of. cbn [fst snd]. rewrite solid_append_stripped.
      reflexivity.
Qed.

Lemma sentence_loop_solid (max_length : Z) (pieces : list str) :
  forall st,
  solid_of (sentence_loop max_length pieces st)
  = solid_of st ++ solid (concat pieces).
Proof.
  induction pieces as [|s|s sep rest IH] using list_ind2; intros st.
  - symmetry. apply app_nil_r.
  - cbn [sentence_loop concat]. apply sentence_step_solid.
  - cbn [sentence_loop concat]. rewrite IH, sentence_step_solid.
    rewrite <- app_assoc, <- solid_app, <- app_assoc. reflexivity.
Qed.

Lemma concat_filter_truthy (l : list str) :
  concat (filter truthy l) = concat l.
Proof.
  induction l as [|x l IH]; [reflexivity|].
  cbn [filter]. destruct x as [|c x']; cbn [truthy concat app].
  - exact IH.
  - rewrite IH. reflexivity.
Qed.

(** The chunker loses and adds nothing but whitespace: for every text
    and every limit, the characters of the chunks that are not
    whitespace are those of the text, in the same order. *)
Theorem chunks_keep_characters (text : str) (max_length : Z) :
  solid (concat (split_text_into_chunks text max_length)) = solid text.
Proof.
  unfold split_text_into_chunks.
  destruct (len text <=? max_length).
  { cbn [concat]. rewrite app_nil_r. reflexivity. }
  pose proof (sentence_loop_solid max_length (re_split text) ([], [])) as H.
  destruct (sentence_loop max_length (re_split text) ([], []))
    as [chunks current].
  rewrite concat_filter_truthy, solid_append_stripped.
  unfold solid_of in H. cbn [fst snd] in H. rewrite H.
  rewrite concat_re_split. reflexivity.
Qed.

(** *** Trimmed chunks *)

Lemma lstrip_head (s : str) :
  match lstrip s with
  | [] => True
  | c :: _ => isspace c = false
  end.
Proof.
  induction s as [|c s IH]; [exact I|].
  cbn [lstrip]. destruct (isspace c) eqn:Hc; [exact IH | exact Hc].
Qed.

Lemma lstrip_fixed (s : str) :
  match s with
  | [] => True
  | c :: _ => isspace c = false
  end -> lstrip s = s.
Proof. destruct s as [|c s]; [reflexivity|]. cbn [lstrip]. intros ->. reflexivity. Qed.

Lemma lstrip_idempotent (s : str) : lstrip (lstrip s) = lstrip s.
Proof. apply lstrip_fixed, lstrip_head. Qed.

Lemma rstrip_idempotent (s : str) : rstrip (rstrip s) = rstrip s.
Proof. unfold rstrip. rewrite rev_involutive, lstrip_idempotent. reflexivity. Qed.

Lemma lstrip_rstrip_lstrip (s : str) :
  lstrip (rstrip (lstrip s)) = rstrip (lstrip s).
Proof.
  apply lstrip_fixed.
  pose proof (lstrip_head s) as Hh.
  destruct (rstrip_split_off (lstrip s)) as [sp [E _]].
  destruct (rstrip (lstrip s)) as [|c r]; [exact I|].
  rewrite E in Hh. exact Hh.
Qed.

Lemma strip_idempotent (s : str) : strip (strip s) = strip s.
Proof.
  unfold strip. rewrite lstrip_rstrip_lstrip. apply rstrip_idempotent.
Qed.

Lemma stripped_fixed (c : str) : stripped c -> strip c = c.
Proof. intros [x ->]. apply strip_idempotent. Qed.

Lemma append_stripped_stripped (chunks : list str) (c : str) :
  Forall stripped chunks -> Forall stripped (append_stripped chunks c).
Proof.
  intros H. unfold append_stripped. destruct (truthy c); [|exact H].
  apply Forall_app. split; [exact H|].
  constructor; [exists c; reflexivity | constructor].
Qed.

Lemma word_step_stripped (max_length : Z) (st : list str * str) (w : str) :
  Forall stripped (fst st) ->
  Forall stripped (fst (word_step max_length st w)).
Proof.
  destruct st as [chunks temp]. unfold word_step. cbn [fst].
  destruct (len temp + len w + 1 <=? max_length); cbn [fst];
    [auto | apply append_stripped_stripped].
Qed.

Lemma word_loop_stripped (max_length : Z) (ws : list str) :
  forall st,
  Forall stripped (fst st) ->
  Forall stripped (fst (fold_left (word_step max_length) ws st)).
Proof.
  induction ws as [|w ws IH]; intros st H; [exact H|].
  cbn [fold_left]. apply IH, word_step_stripped, H.
Qed.

Lemma sentence_step_stripped (max_length : Z) (st : list str * str)
    (sentence separator : str) :
  Forall stripped (fst st) ->
  Forall stripped (fst (sentence_step max_length st sentence separator)).
Proof.
  destruct st as [chunks current]. unfold sentence_step. cbn [fst].
  intros H.
  destruct (len current + len (sentence ++ separator) <=? max_length);
    [exact H|].
  destruct (max_length <? len (sentence ++ separator)).
  - apply word_loop_stripped, append_stripped_stripped, H.
  - apply append_stripped_stripped, H.
Qed.

Lemma sentence_loop_stripped (max_length : Z) (pieces : list str) :
  forall st,
  Forall stripped (fst st) ->
  Forall stripped (fst (sentence_loop max_length pieces st)).
Proof.
  induction pieces as [|s|s sep rest IH] using list_ind2; intros st H.
  - exact H.
  - apply sentence_step_stripped, H.
  - cbn [sentence_loop]. apply IH, sentence_step_stripped, H.
Qed.

(** The chunks of a text longer than the limit are trimmed: none begins
    or ends with whitespace, [strip] leaves each as it is. *)
Theorem long_text_chunks_are_trimmed (text : str) (max_length : Z) :
  max_length < len text ->
  Forall (fun chunk => strip chunk = chunk)
    (split_text_into_chunks text max_length).
Proof.
  intros Hlong. unfold split_text_into_chunks.
  apply Z.leb_gt in Hlong. rewrite Hlong.
  pose proof (sentence_loop_stripped max_length (re_split text) ([], [])
                (Forall_nil _)) as H.
  destruct (sentence_loop max_length (re_split text) ([], []))
    as [chunks current].
  cbn [fst] in H.
  pose proof (append_stripped_stripped chunks current H) as Hall.
  rewrite Forall_forall in Hall.
  apply Forall_forall. intros c Hin. apply filter_In in Hin.
  apply stripped_fixed, Hall, Hin.
Qed.

Lemma long_text_chunks_are_trimmed_witness :
  Forall (fun chunk => strip chunk = chunk)
    (split_text_into_chunks
       (of_string "hello world. this is a test! ok") 12).
Proof.
  apply long_text_chunks_are_trimmed. vm_compute. reflexivity.
Defined.

(** *** Blank and solid texts *)

Lemma strip_head (s : str) :
  match strip s with
  | [] => True
  | c :: _ => isspace c = false
  end.
Proof.
  pose proof (lstrip_head (strip s)) as H.
  assert (E : lstrip (strip s) = strip s)
    by (unfold strip; apply lstrip_rstrip_lstrip).
  rewrite E in H. exact H.
Qed.

Lemma solid_stripped_nonempty (c : str) :
  strip c = c -> c <> [] -> solid c <> [].
Proof.
  intros Hs Hne. pose proof (strip_head c) as Hh. rewrite Hs in Hh.
  destruct c as [|c0 c']; [congruence|].
  cbn [solid filter]. rewrite Hh. discriminate.
Qed.

(** A text longer than the limit and made of whitespace only, of any
    kind, yields no chunk at all. *)
Theorem whitespace_only_text_gives_no_chunk (text : str) (max_length : Z) :
  Forall (fun c => isspace c = true) text -> max_length < len text ->
  split_text_into_chunks text max_length = [].
Proof.
  intros Hws Hlong.
  pose proof (chunks_keep_characters text max_length) as Hsolid.
  rewrite (solid_whitespace text Hws) in Hsolid.
  pose proof (long_text_chunks_are_trimmed text max_length Hlong) as Htrim.
  pose proof (long_text_chunks_well_formed text max_length Hlong) as Hwf.
  destruct (split_text_into_chunks text max_length) as [|c l];
    [reflexivity | exfalso].
  inversion Htrim as [|? ? Hc _]; subst.
  inversion Hwf as [|? ? [Hne _] _]; subst.
  apply (solid_stripped_nonempty c Hc Hne).
  cbn [concat] in Hsolid. rewrite solid_app in Hsolid.
  apply app_eq_nil in Hsolid. apply Hsolid.
Qed.

Lemma whitespace_only_text_gives_no_chunk_witness :
  split_text_into_chunks [space; newline; 9%N; space] 3 = [].
Proof.
  apply whitespace_only_text_gives_no_chunk.
  - repeat constructor.
  - vm_compute. reflexivity.
Defined.

Lemma blank_solid (text : str) : blank text = false -> solid text <> [].
Proof.
  unfold blank. intros H. apply orb_false_elim in H. destruct H as [_ H].
  apply negb_false_iff in H. rewrite <- solid_strip.
  apply solid_stripped_nonempty; [apply strip_idempotent|].
  apply truthy_true, H.
Qed.

(** A text that is not blank always yields at least one chunk, for every
    limit: the texts the handlers let through never leave the pipeline
    with an empty list of chunks. *)
Theorem text_that_is_not_blank_gives_a_chunk (text : str) (max_length : Z) :
  blank text = false ->
  split_text_into_chunks text max_length <> [].
Proof.
  intros Hb Hnil.
  pose proof (chunks_keep_characters text max_length) as H.
  rewrite Hnil in H. cbn in H.
  apply (blank_solid text Hb). symmetry. exact H.
Qed.

Lemma text_that_is_not_blank_gives_a_chunk_witness :
  split_text_into_chunks (of_string " a ") 2 <> [].
Proof.
  apply text_that_is_not_blank_gives_a_chunk. vm_compute. reflexivity.
Defined.

(** *** One word longer than the limit *)

Lemma re_split_no_separator (s : str) :
  Forall (fun c => is_sep c = false) s -> re_split s = [s].
Proof.
  induction 1 as [|c s Hc _ IH]; [reflexivity|].
  cbn [re_split]. rewrite IH, Hc. reflexivity.
Qed.

(** A text that is one unbroken word, with no whitespace and no sentence
    terminator, and longer than the limit, is returned whole as the one
    chunk: a word is never cut. *)
Theorem single_long_word_is_one_chunk (text : str) (max_length : Z) :
  Forall (fun c => isspace c = false) text ->
  Forall (fun c => is_sep c = false) text ->
  0 <= max_length -> max_length < len text ->
  split_text_into_chunks text max_length = [text].
Proof.
  intros Hns Hnsep Hpos Hlong.
  assert (Hne : text <> []).
  { intros ->. cbn in Hlong. lia. }
  assert (Hw : word text) by (split; assumption).
  unfold split_text_into_chunks.
  pose proof Hlong as Hlong'. apply Z.leb_gt in Hlong'. rewrite Hlong'.
  rewrite (re_split_no_separator text Hnsep). cbn [sentence_loop].
  unfold sentence_step. rewrite app_nil_r, len_nil, Z.add_0_l, Hlong'.
  pose proof Hlong as Hlt. apply Z.ltb_lt in Hlt. rewrite Hlt.
  rewrite (split_word text Hw). cbn [fold_left append_stripped truthy].
  unfold word_step. rewrite len_nil, Z.add_0_l.
  assert (Hno : (len text + 1 <=? max_length) = false)
    by (apply Z.leb_gt; lia).
  rewrite Hno. cbn [append_stripped truthy].
  destruct text as [|c t]; [congruence|].
  unfold append_stripped. cbn [truthy app].
  rewrite (strip_nospace (c :: t) Hns). reflexivity.
Qed.

Lemma single_long_word_is_one_chunk_witness :
  split_text_into_chunks (of_string "abcdefgh") 3 = [of_string "abcdefgh"].
Proof.
  apply single_long_word_is_one_chunk.
  - repeat constructor.
  - repeat constructor.
  - lia.
  - vm_compute. reflexivity.
Defined.

(* ================================================================== *)
(** ** The pipeline: runs in which no call fails *)
(* ================================================================== *)

Section Calm.
Variable bytes : Z.

Lemma calmly_ret {A} (a : A) (Q : A -> list event -> Prop) :
  Q a [] -> calmly bytes (ret a) Q.
Proof.
  intros HQ s Ho Hb. exists a, s, [].
  repeat split; try assumption. apply extends_refl.
Qed.

Lemma calmly_bind {A B} (m : M A) (k : A -> M B)
    (Q1 : A -> list event -> Prop) (Q : B -> list event -> Prop) :
  calmly bytes m Q1 ->
  (forall a e1, Q1 a e1 -> calmly bytes (k a) (fun b e2 => Q b (e1 ++ e2))) ->
  calmly bytes (bind m k) Q.
Proof.
  intros Hm Hk s Ho Hb.
  destruct (Hm s Ho Hb) as (a & s1 & e1 & E1 & Ho1 & Hb1 & X1 & HQ1).
  destruct (Hk a e1 HQ1 s1 Ho1 Hb1) as (b & s2 & e2 & E2 & Ho2 & Hb2 & X2 & HQ).
  exists b, s2, (e1 ++ e2). rewrite bind_run, E1.
  repeat split; try assumption. eapply extends_trans; eassumption.
Qed.

Lemma calmly_weaken {A} (m : M A) (Q1 Q : A -> list event -> Prop) :
  calmly bytes m Q1 -> (forall a evs, Q1 a evs -> Q a evs) ->
  calmly bytes m Q.
Proof.
  intros Hm HQ s Ho Hb.
  destruct (Hm s Ho Hb) as (a & s1 & e1 & E1 & Ho1 & Hb1 & X1 & HQ1).
  exists a, s1, e1. repeat split; try assumption. apply HQ, HQ1.
Qed.

Lemma calmly_try_except {A} (m : M A) (h : exn -> M A)
    (Q : A -> list event -> Prop) :
  calmly bytes m Q -> calmly bytes (try_except m h) Q.
Proof.
  intros Hm s Ho Hb.
  destruct (Hm s Ho Hb) as (a & s1 & e1 & E1 & Ho1 & Hb1 & X1 & HQ1).
  exists a, s1, e1. rewrite try_except_run, E1. repeat split; assumption.
Qed.

Lemma calmly_call (ev : event) :
  calmly bytes (call ev) (fun _ evs => evs = [ev]).
Proof.
  intros s Ho Hb. exists tt, (record ev s), [ev].
  unfold call, outcome, bind. cbn [outcomes record]. rewrite Ho.
  repeat split; assumption.
Qed.

Lemma calmly_log (l : level) :
  calmly bytes (log l) (fun _ evs => evs = [logger l]).
Proof.
  intros s Ho Hb. exists tt, (record (logger l) s), [logger l].
  repeat split; assumption.
Qed.

Lemma calmly_safe_edit_message (chat mid : Z) (text : message) :
  calmly bytes (_safe_edit_message chat mid text)
    (fun _ evs => evs = [edit_message_text text chat mid]).
Proof. unfold _safe_edit_message. apply calmly_try_except, calmly_call. Qed.

Lemma calmly_bot_send_message (chat : Z) (m : message) :
  calmly bytes (bot_send_message chat m)
    (fun _ evs => evs = [send_message chat m]).
Proof.
  intros s Ho Hb.
  exists (next_mid s), (set_next_mid (next_mid s + 1) (record (send_message chat m) s)),
    [send_message chat m].
  unfold bot_send_message, call, outcome, bind. cbn [outcomes record].
  rewrite Ho. repeat split; assumption.
Qed.

Lemma calmly_new_temp_file (sfx : suffix) :
  calmly bytes (new_temp_file sfx)
    (fun f evs => evs = [NamedTemporaryFile f sfx]).
Proof.
  intros s Ho Hb. unfold new_temp_file, mktemp, outcome, bind. rewrite Ho.
  do 3 eexists. split; [reflexivity|]. repeat split; assumption.
Qed.

Lemma calmly_from_mp3 (f : path) :
  calmly bytes (AudioSegment_from_mp3 f)
    (fun a evs => sources a = [f] /\ evs = [from_mp3 f]).
Proof.
  unfold AudioSegment_from_mp3.
  eapply calmly_bind; [apply calmly_call | intros _ e1 ->].
  apply calmly_ret. split; reflexivity.
Qed.

Lemma calmly_speedup (a : audio) (sp : speed) :
  calmly bytes (audio_speedup a sp)
    (fun a' evs => sources a' = sources a /\ evs = [speedup a sp]).
Proof.
  unfold audio_speedup.
  eapply calmly_bind; [apply calmly_call | intros _ e1 ->].
  apply calmly_ret. split; reflexivity.
Qed.

Lemma calmly_getsize (f : path) :
  calmly bytes (os_path_getsize f)
    (fun z evs => z = bytes /\ evs = [getsize f]).
Proof.
  intros s Ho Hb. exists bytes, (record (getsize f) s), [getsize f].
  unfold os_path_getsize, call, outcome, bind. cbn [outcomes record].
  rewrite Ho. cbn [encoded_bytes record]. rewrite Hb.
  repeat split; assumption.
Qed.

End Calm.

Lemma synthesized_app (a b : list event) :
  synthesized (a ++ b) = synthesized a ++ synthesized b.
Proof. apply flat_map_app. Qed.

Lemma exported_app (a b : list event) :
  exported (a ++ b) = exported a ++ exported b.
Proof. apply flat_map_app. Qed.

Lemma sent_app (a b : list event) : sent (a ++ b) = sent a ++ sent b.
Proof. apply flat_map_app. Qed.

Lemma progress_app (a b : list event) :
  progress (a ++ b) = progress a ++ progress b.
Proof. apply flat_map_app. Qed.

Lemma no_job_call (evs : list event) :
  existsb is_job_call evs = false ->
  synthesized evs = [] /\ exported evs = [] /\ sent evs = []
  /\ progress evs = [].
Proof.
  induction evs as [|ev evs IH]; [repeat split|].
  cbn [existsb]. intros H. apply orb_false_elim in H. destruct H as [Hev H].
  destruct (IH H) as (H1 & H2 & H3 & H4).
  change (ev :: evs) with ([ev] ++ evs).
  rewrite synthesized_app, exported_app, sent_app, progress_app.
  rewrite H1, H2, H3, H4, !app_nil_r.
  destruct ev; try discriminate Hev; repeat split.
Qed.

(** Rewriting of the four lists over a trace put together by [++]. *)
Ltac lists_of_calls :=
  rewrite ?synthesized_app, ?exported_app, ?sent_app, ?progress_app;
  cbn [synthesized exported sent progress flat_map app].

Section CalmJob.
Variable bytes : Z.

Lemma calmly_ret_eq {A} (a : A) :
  calmly bytes (ret a) (fun a' evs => a' = a /\ evs = []).
Proof. apply calmly_ret. split; reflexivity. Qed.

Lemma calmly_reset :
  calmly bytes reset_temp_files (fun _ evs => evs = []).
Proof.
  intros s Ho Hb. exists tt, (set_temp_files [] s), [].
  repeat split; try assumption. apply extends_same. reflexivity.
Qed.

Lemma ends_bind {A B} (m : M A) (k : A -> M B)
    (Q1 : A -> list event -> Prop) (Q : list event -> Prop) :
  calmly bytes m Q1 ->
  (forall a e1, Q1 a e1 -> ends bytes (k a) (fun e2 => Q (e1 ++ e2))) ->
  ends bytes (bind m k) Q.
Proof.
  intros Hm Hk s Ho Hb.
  destruct (Hm s Ho Hb) as (a & s1 & e1 & E1 & Ho1 & Hb1 & X1 & HQ1).
  destruct (Hk a e1 HQ1 s1 Ho1 Hb1) as (e2 & X2 & HQ).
  exists (e1 ++ e2). rewrite bind_run, E1.
  split; [eapply extends_trans; eassumption | exact HQ].
Qed.

Lemma try_finally_snd {A} (m : M A) (fin : M unit) (s : state) :
  snd (try_finally m fin s) = snd (fin (snd (m s))).
Proof.
  unfold try_finally. destruct (m s) as [r s1]. cbn [snd].
  destruct (fin s1) as [[u | e] s2]; reflexivity.
Qed.

(** The [finally] block adds no call of the job to what the [try] block
    did. *)
Lemma ends_try_finally (m : M unit) (Q : unit -> list event -> Prop) :
  calmly bytes m Q ->
  ends bytes (try_finally m cleanup)
    (fun evs => exists body sweep,
       evs = body ++ sweep /\ Q tt body
       /\ existsb is_job_call sweep = false).
Proof.
  intros Hm s Ho Hb.
  destruct (Hm s Ho Hb) as ([] & s1 & e1 & E1 & Ho1 & Hb1 & X1 & HQ1).
  rewrite try_finally_snd, E1. cbn [snd].
  assert (Hc : keeps (avoids is_job_call) cleanup) by step_one.
  destruct (Hc s1) as (e2 & X2 & H2).
  exists (e1 ++ e2). split; [eapply extends_trans; eassumption|].
  exists e1, e2. repeat split; assumption.
Qed.

Lemma due_seq (total : Z) (k n : nat) :
  map (fun i => (i, total))
    (filter (due total) (map Z.of_nat (seq k (S n))))
  = (if due total (Z.of_nat k) then [(Z.of_nat k, total)] else [])
    ++ map (fun i => (i, total))
         (filter (due total) (map Z.of_nat (seq (S k) n))).
Proof.
  cbn [seq map filter]. destruct (due total (Z.of_nat k)); reflexivity.
Qed.

Lemma calmly_chunk_loop (chat mid total : Z) (chunks : list str) :
  forall (k : nat) (segs : list audio),
  calmly bytes (chunk_loop chat mid total chunks (Z.of_nat k) segs)
    (fun segs' evs =>
       concat (map sources segs')
       = concat (map sources segs) ++ map snd (synthesized evs)
       /\ map fst (synthesized evs) = chunks
       /\ progress evs
          = map (fun i => (i, total))
              (filter (due total) (map Z.of_nat (seq k (length chunks))))
       /\ exported evs = [] /\ sent evs = []
       /\ length segs' = (length segs + length chunks)%nat).
Proof.
  induction chunks as [|chunk rest IH]; intros k segs; cbn [chunk_loop].
  - apply calmly_ret. cbn. rewrite app_nil_r, Nat.add_0_r. repeat split.
  - eapply calmly_bind;
      [apply calmly_try_except, calmly_call | intros _ e1 ->].
    eapply (calmly_bind bytes _ _
              (fun _ evs =>
                 evs = if due total (Z.of_nat k)
                       then [edit_message_text
                               (Processed (Z.of_nat k) total) chat mid]
                       else [])).
    { unfold due. destruct (_ || _);
        [apply calmly_safe_edit_message | apply calmly_ret; reflexivity]. }
    intros _ e2 ->.
    eapply calmly_bind; [apply calmly_new_temp_file | intros f e3 ->].
    eapply calmly_bind; [apply calmly_call | intros _ e4 ->].
    eapply calmly_bind; [apply calmly_from_mp3 | intros a e5 [Ha ->]].
    eapply calmly_bind; [apply calmly_log | intros _ e6 ->].
    replace (Z.of_nat k + 1) with (Z.of_nat (S k)) by lia.
    eapply calmly_weaken; [apply IH|].
    intros segs' evs (H1 & H2 & H3 & H4 & H5 & H6).
    cbn [length]. rewrite due_seq.
    destruct (due total (Z.of_nat k)); lists_of_calls; cbn [map fst snd];
      rewrite H2, H3, H4, H5; (repeat split; try reflexivity);
      [ rewrite H1, map_app, concat_app; cbn [map concat];
        rewrite Ha, app_nil_r, <- app_assoc; reflexivity
      | rewrite H6, length_app; cbn [length]; lia
      | rewrite H1, map_app, concat_app; cbn [map concat];
        rewrite Ha, app_nil_r, <- app_assoc; reflexivity
      | rewrite H6, length_app; cbn [length]; lia ].
Qed.

Lemma sources_fold_add (others : list audio) :
  forall first,
  sources (fold_left audio_add others first)
  = sources first ++ concat (map sources others).
Proof.
  induction others as [|a others IH]; intros first; cbn [fold_left map concat].
  - symmetry. apply app_nil_r.
  - rewrite IH. cbn [audio_add sources]. rewrite app_assoc. reflexivity.
Qed.

Lemma calmly_multiple_chunks_try (chat : Z) (chunks : list str) (sp : speed)
    (progress_msg : Z) :
  chunks <> [] ->
  calmly bytes (multiple_chunks_try chat chunks sp progress_msg)
    (fun _ evs => multiple_chunks_done bytes chunks evs).
Proof.
  intros Hne. unfold multiple_chunks_try. apply calmly_try_except.
  change 1 with (Z.of_nat 1).
  eapply calmly_bind; [apply calmly_chunk_loop|].
  intros segs e1 (H1 & H2 & H3 & H4 & H5 & H6).
  eapply calmly_bind; [apply calmly_safe_edit_message | intros _ e2 ->].
  destruct segs as [|first others].
  { exfalso. destruct chunks; [congruence | discriminate H6]. }
  eapply calmly_bind; [apply calmly_ret_eq | intros combined e3 [-> ->]].
  eapply (calmly_bind bytes _ _
            (fun a evs =>
               sources a = sources (fold_left audio_add others first)
               /\ synthesized evs = [] /\ exported evs = []
               /\ sent evs = [] /\ progress evs = [])).
  { destruct (negb (is_normal sp)).
    - eapply calmly_bind;
        [apply calmly_safe_edit_message | intros _ e4 ->].
      eapply calmly_weaken; [apply calmly_speedup|].
      intros a evs [Ha ->]. repeat split. exact Ha.
    - apply calmly_ret. repeat split. }
  intros combined e4 (Ha & S4 & E4 & T4 & P4).
  eapply calmly_bind; [apply calmly_safe_edit_message | intros _ e5 ->].
  eapply calmly_bind; [apply calmly_new_temp_file | intros f e6 ->].
  eapply calmly_bind; [apply calmly_call | intros _ e7 ->].
  eapply calmly_bind; [apply calmly_getsize | intros z e8 [-> ->]].
  eapply calmly_bind; [apply calmly_log | intros _ e9 ->].
  assert (Hsrc : sources combined = map snd (synthesized e1)).
  { rewrite Ha, sources_fold_add.
    cbn [map concat app] in H1. exact H1. }
  destruct (too_large bytes) eqn:Hbig.
  - eapply calmly_bind;
      [apply calmly_safe_edit_message | intros _ e10 ->].
    eapply calmly_weaken; [apply calmly_log | intros _ evs ->].
    unfold multiple_chunks_done. lists_of_calls.
    rewrite S4, E4, T4, P4, H3, H4, H5, Hbig, !app_nil_r. cbn [app].
    split; [exact H2|]. split; [|reflexivity].
    exists combined, f. repeat split. exact Hsrc.
  - eapply calmly_bind;
      [apply calmly_try_except, calmly_call | intros _ e10 ->].
    eapply calmly_bind; [apply calmly_call | intros _ e11 ->].
    eapply calmly_weaken; [apply calmly_log | intros _ evs ->].
    unfold multiple_chunks_done. lists_of_calls.
    rewrite S4, E4, T4, P4, H3, H4, H5, Hbig, !app_nil_r. cbn [app].
    split; [exact H2|]. split; [|reflexivity].
    exists combined, f. repeat split. exact Hsrc.
Qed.

Lemma ends_multiple_chunks (chat : Z) (chunks : list str) (title : str)
    (sp : speed) :
  chunks <> [] ->
  ends bytes (_convert_multiple_chunks chat chunks title sp)
    (multiple_chunks_done bytes chunks).
Proof.
  intros Hne. unfold _convert_multiple_chunks.
  eapply ends_bind; [apply calmly_log | intros _ e1 ->].
  eapply ends_bind; [apply calmly_bot_send_message | intros mid e2 ->].
  eapply ends_bind; [apply calmly_reset | intros _ e3 ->].
  intros s Ho Hb.
  destruct (ends_try_finally _ _
              (calmly_multiple_chunks_try chat chunks sp mid Hne) s Ho Hb)
    as (evs & X & body & sweep & -> & (H1 & (a & f & H2 & H3 & H4) & H5) & Hs).
  exists (body ++ sweep). split; [exact X|].
  destruct (no_job_call sweep Hs) as (S1 & S2 & S3 & S4).
  unfold multiple_chunks_done. lists_of_calls.
  rewrite S1, S2, S3, S4, !app_nil_r.
  split; [exact H1|]. split; [|exact H5].
  exists a, f. repeat split; assumption.
Qed.

End CalmJob.

(** A multi-chunk job in which no call fails synthesises each chunk once,
    in the order of the chunks; it exports once, the audio decoded from
    the synthesised files in that same order; it sends the exported file
    exactly when the file is not above the ceiling; and it reports
    progress at the turns that are multiples of 5 and at the last. *)
Theorem calm_multiple_chunks_job (chat : Z) (chunks : list str) (title : str)
    (sp : speed) (s : state) :
  outcomes s = [] -> chunks <> [] ->
  multiple_chunks_done (encoded_bytes s) chunks
    (since s (snd (_convert_multiple_chunks chat chunks title sp s))).
Proof.
  intros Ho Hne.
  destruct (ends_multiple_chunks (encoded_bytes s) chat chunks title sp Hne
              s Ho eq_refl) as (evs & X & H).
  rewrite (since_extends _ _ _ X). exact H.
Qed.

Lemma calm_multiple_chunks_job_witness :
  multiple_chunks_done (encoded_bytes (initial [] 0))
    [of_string "one"; of_string "two"]
    (since (initial [] 0)
       (snd (_convert_multiple_chunks 7 [of_string "one"; of_string "two"]
               [] double_speed (initial [] 0)))).
Proof.
  apply calm_multiple_chunks_job; [reflexivity | discriminate].
Defined.

(** Order is kept from the chunks to the audio: a multi-chunk job in
    which no call fails synthesises the chunks one by one in their order,
    and the one audio it exports is made of the synthesised files in that
    same order. *)
Theorem calm_job_keeps_chunk_order (chat : Z) (chunks : list str)
    (title : str) (sp : speed) (s : state) :
  outcomes s = [] -> chunks <> [] ->
  map fst
    (synthesized
       (since s (snd (_convert_multiple_chunks chat chunks title sp s))))
  = chunks
  /\ exists a f,
       exported
         (since s (snd (_convert_multiple_chunks chat chunks title sp s)))
       = [(a, f)]
       /\ sources a
          = map snd
              (synthesized
                 (since s
                    (snd (_convert_multiple_chunks chat chunks title sp s)))).
Proof.
  intros Ho Hne.
  destruct (calm_multiple_chunks_job chat chunks title sp s Ho Hne)
    as (H1 & (a & f & H2 & H3 & _) & _).
  split; [exact H1|]. exists a, f. split; assumption.
Qed.

Lemma calm_job_keeps_chunk_order_witness :
  map fst
    (synthesized
       (since (initial [] 0)
          (snd (_convert_multiple_chunks 7
                  [of_string "one"; of_string "two"] [] double_speed
                  (initial [] 0)))))
  = [of_string "one"; of_string "two"]
  /\ exists a f,
       exported
         (since (initial [] 0)
            (snd (_convert_multiple_chunks 7
                    [of_string "one"; of_string "two"] [] double_speed
                    (initial [] 0))))
       = [(a, f)]
       /\ sources a
          = map snd
              (synthesized
                 (since (initial [] 0)
                    (snd (_convert_multiple_chunks 7
                            [of_string "one"; of_string "two"] []
                            double_speed (initial [] 0))))).
Proof.
  apply calm_job_keeps_chunk_order; [reflexivity | discriminate].
Defined.

(** An artifact within the ceiling is delivered: when no call fails and
    the exported file is not above [TELEGRAM_MAX_AUDIO_SIZE_MB], the
    multi-chunk job sends exactly one voice, the file it exported. *)
Theorem calm_job_within_ceiling_is_sent (chat : Z) (chunks : list str)
    (title : str) (sp : speed) (s : state) :
  outcomes s = [] -> chunks <> [] -> too_large (encoded_bytes s) = false ->
  exists a f,
    exported
      (since s (snd (_convert_multiple_chunks chat chunks title sp s)))
    = [(a, f)]
    /\ sent (since s (snd (_convert_multiple_chunks chat chunks title sp s)))
       = [f].
Proof.
  intros Ho Hne Hsmall.
  destruct (calm_multiple_chunks_job chat chunks title sp s Ho Hne)
    as (_ & (a & f & H2 & _ & H4) & _).
  rewrite Hsmall in H4. exists a, f. split; assumption.
Qed.

Lemma calm_job_within_ceiling_is_sent_witness :
  exists a f,
    exported
      (since (initial [] (50 * 1024 * 1024))
         (snd (_convert_multiple_chunks 7
                 [of_string "one"; of_string "two"] [] normal_speed
                 (initial [] (50 * 1024 * 1024)))))
    = [(a, f)]
    /\ sent
         (since (initial [] (50 * 1024 * 1024))
            (snd (_convert_multiple_chunks 7
                    [of_string "one"; of_string "two"] [] normal_speed
                    (initial [] (50 * 1024 * 1024)))))
       = [f].
Proof.
  apply calm_job_within_ceiling_is_sent;
    [reflexivity | discriminate | reflexivity].
Defined.

(** The cadence of the updates: in a multi-chunk job of [n] chunks in
    which no call fails, "Processed i/n" is shown for exactly the turns
    [i] from 1 to [n] that are multiples of 5 or equal to [n], in
    order. *)
Theorem calm_job_progress_cadence (chat : Z) (chunks : list str)
    (title : str) (sp : speed) (s : state) :
  outcomes s = [] -> chunks <> [] ->
  progress (since s (snd (_convert_multiple_chunks chat chunks title sp s)))
  = map (fun i => (i, Z.of_nat (length chunks)))
      (filter (due (Z.of_nat (length chunks)))
         (map Z.of_nat (seq 1 (length chunks)))).
Proof.
  intros Ho Hne.
  destruct (calm_multiple_chunks_job chat chunks title sp s Ho Hne)
    as (_ & _ & H). exact H.
Qed.

Lemma calm_job_progress_cadence_witness :
  progress
    (since (initial [] 0)
       (snd (_convert_multiple_chunks 7 (repeat (of_string "chunk") 12) []
               normal_speed (initial [] 0))))
  = map (fun i => (i, Z.of_nat (length (repeat (of_string "chunk") 12))))
      (filter (due (Z.of_nat (length (repeat (of_string "chunk") 12))))
         (map Z.of_nat (seq 1 (length (repeat (of_string "chunk") 12))))).
Proof.
  apply calm_job_progress_cadence; [reflexivity | discriminate].
Defined.

(** *** The job of one chunk *)

Lemma calmly_single_chunk_try (bytes chat : Z) (text : str) (sp : speed) :
  calmly bytes (single_chunk_try chat text sp)
    (fun _ evs => single_chunk_done text evs).
Proof.
  unfold single_chunk_try.
  eapply calmly_bind; [apply calmly_new_temp_file | intros f1 e1 ->].
  eapply calmly_bind; [apply calmly_call | intros _ e2 ->].
  eapply calmly_bind; [apply calmly_from_mp3 | intros a0 e3 [Ha0 ->]].
  eapply (calmly_bind bytes _ _
            (fun a evs =>
               sources a = [f1]
               /\ synthesized evs = [] /\ exported evs = []
               /\ sent evs = [])).
  { destruct (negb (is_normal sp)).
    - eapply calmly_weaken; [apply calmly_speedup|].
      intros a evs [Ha ->]. repeat split. congruence.
    - apply calmly_ret. repeat split. exact Ha0. }
  intros a e4 (Ha & S4 & E4 & T4).
  eapply calmly_bind; [apply calmly_new_temp_file | intros f2 e5 ->].
  eapply calmly_bind; [apply calmly_call | intros _ e6 ->].
  eapply calmly_bind; [apply calmly_log | intros _ e7 ->].
  eapply calmly_bind; [apply calmly_call | intros _ e8 ->].
  eapply calmly_weaken; [apply calmly_log | intros _ evs ->].
  exists f1, f2, a. lists_of_calls. rewrite S4, E4, T4.
  repeat split. exact Ha.
Qed.

Lemma ends_single_chunk (bytes chat : Z) (text title : str) (sp : speed) :
  ends bytes (_convert_single_chunk chat text title sp)
    (single_chunk_done text).
Proof.
  unfold _convert_single_chunk.
  eapply ends_bind; [apply calmly_call | intros _ e1 ->].
  eapply ends_bind; [apply calmly_reset | intros _ e2 ->].
  intros s Ho Hb.
  destruct (ends_try_finally bytes _ _
              (calmly_single_chunk_try bytes chat text sp) s Ho Hb)
    as (evs & X & body & sweep & -> & (f1 & f2 & a & H1 & H2 & H3 & H4) & Hs).
  exists (body ++ sweep). split; [exact X|].
  destruct (no_job_call sweep Hs) as (S1 & S2 & S3 & S4).
  exists f1, f2, a. lists_of_calls. rewrite S1, S2, S3, !app_nil_r.
  repeat split; assumption.
Qed.

(** A text the chunker returns as one chunk is synthesised whole and as
    it was received, not as the chunk: when no call fails, the job makes
    one synthesis, of the text itself, exports the audio decoded from
    that file, and sends the exported file. *)
Theorem calm_job_of_one_chunk (chat : Z) (text title : str)
    (user_id : option Z) (sp : speed) (s : state) :
  outcomes s = [] -> len text <= MAX_TEXT_LENGTH ->
  length (split_text_into_chunks text MAX_CHUNK_LENGTH) = 1%nat ->
  single_chunk_done text
    (since s (snd (convert_text_to_speech chat text title user_id sp s))).
Proof.
  intros Ho Hlen Hone. unfold convert_text_to_speech.
  apply Z.ltb_ge in Hlen. rewrite Hlen, Hone. cbn [Z.of_nat Pos.of_succ_nat Z.eqb Pos.eqb].
  assert (Hsp : forall sp',
            exists evs,
              extends s (snd (_convert_single_chunk chat text title sp' s)) evs
              /\ single_chunk_done text evs).
  { intros sp'.
    apply (ends_single_chunk (encoded_bytes s) chat text title sp' s Ho
             eq_refl). }
  rewrite bind_run.
  destruct user_id as [u|]; [destruct (negb (u =? 0))|];
    cbn [get_user_speed ret];
    match goal with
    | |- context [_convert_single_chunk chat text title ?sp' s] =>
        destruct (Hsp sp') as (evs & X & H)
    end;
    rewrite (since_extends _ _ _ X); exact H.
Qed.

Lemma calm_job_of_one_chunk_witness :
  single_chunk_done (of_string " hi ")
    (since (initial [] 0)
       (snd (convert_text_to_speech 7 (of_string " hi ") [] None
               normal_speed (initial [] 0)))).
Proof.
  apply calm_job_of_one_chunk; [reflexivity | vm_compute; discriminate
                               | reflexivity].
Defined.

(* ================================================================== *)
(** ** The pipeline: nothing partial is sent *)
(* ================================================================== *)






















